(** * scalapy.lowlevel: argument expansion and the work-query protocol

    A shallow embedding of [scalapy/lowlevel/__init__.py]: the three
    expansion passes ([_expand_dm], [_encode_strings], [_expand_work]), the
    [WorkArray] helper class, the invoker [_call_routine] and the wrapper
    built by [_wrap_routine].

    Python objects that the module mutates or hands to the native routine
    live in an explicit store: numpy arrays in [arrays], [WorkArray]
    instances in [works].  Every native call is logged in [calls] together
    with the array heap it was entered with, so that statements about "the
    first call" and "the second call" can be made about the log. *)

From Stdlib Require Import ZArith NArith List Bool Lia.
From Stdlib Require Import Strings.Byte Floats.SpecFloat.
From stdpp Require Import base list strings.

Local Open Scope Z_scope.

Set Warnings "-register-all".

(** ** Data model *)

(** The numpy dtypes named in [WorkArray.__init__]'s [_typemap]. *)
Inductive np_type := float32 | complex64 | float64 | complex128 | int32.

(** One array element.  Floating-point elements are IEEE values in the
    Standard Library's [spec_float] representation. *)
Inductive scalar :=
| SInt (z : Z)
| SFloat (x : spec_float)
| SComplex (re im : spec_float).

Record ndarray := { dtype : np_type; data : list scalar }.

(** Modelled from the spec: [core.DistributedMatrix] is not part of this
    module; the spec's DistributedMatrixHandle exposes a local buffer
    ([_local_array]) and a descriptor block ([desc]), which this layer only
    forwards.  Both are references into the array heap. *)
Record DistributedMatrix := { _local_array : nat; desc : nat }.

(** A Python [str]: a sequence of Unicode code points. *)
Definition text := list N.

(** The argument kinds the module distinguishes with [isinstance], plus
    nested lists (the expansions create them, [util.flatten] removes
    them). *)
Inductive value :=
| VNone
| VInt (z : Z)
| VFloat (x : spec_float)
| VStr (s : text)
| VBytes (b : list byte)
| VArray (r : nat)
| VDistributedMatrix (dm : DistributedMatrix)
| VWorkArray (w : nat)
| VList (l : list value).

(** The attributes of a [WorkArray] instance.  [query_arrays] is [None]
    (the class attribute) until [to_query] has run. *)
Record WorkArray := {
  types : list string;
  np_types : list np_type;
  query_arrays : option (list nat)
}.

(** One native call as seen at the native boundary: the flat argument list
    and the array heap on entry. *)
Record call := { call_args : list value; call_heap : list ndarray }.

(** The store.  [allocator] stands for the memory the environment has: it
    says whether a request for an array of a given length and dtype can be
    served when the heap is as given.  Nothing in the module changes it. *)
Record state := {
  expand_args : bool;
  arrays : list ndarray;
  works : list WorkArray;
  calls : list call;
  allocator : list ndarray -> Z -> np_type -> bool
}.

Definition set_arrays (h : list ndarray) (st : state) : state :=
  {| expand_args := expand_args st; arrays := h;
     works := works st; calls := calls st; allocator := allocator st |}.

Definition set_works (ws : list WorkArray) (st : state) : state :=
  {| expand_args := expand_args st; arrays := arrays st;
     works := ws; calls := calls st; allocator := allocator st |}.

Definition log_call (c : call) (st : state) : state :=
  {| expand_args := expand_args st; arrays := arrays st;
     works := works st; calls := calls st ++ [c]; allocator := allocator st |}.

(** A native (f2py) routine: it receives the flat arguments, may write into
    any array, and either returns a value (the status code) or fails. *)
Definition native := list value -> list ndarray -> option value * list ndarray.

(** ** Exceptions and the state-and-exception monad *)

Inductive exn :=
| UnicodeEncodeError      (* str.encode('ascii') on non-ASCII text *)
| WorkQueryNotPerformed   (* Exception("Work query not yet performed.") *)
| KeyError                (* _typemap[type_] on an unknown code *)
| IndexError              (* arr[0] on an empty array *)
| ValueError              (* int(nan), np.zeros(negative), np.zeros(too large) *)
| MemoryError             (* np.zeros when the memory is not there *)
| OverflowError           (* int(inf) *)
| TypeError               (* int(complex) *)
| NativeError             (* raised inside the native routine *)
| DanglingReference.      (* a reference to no object: not reachable from Python *)

Inductive result (A : Type) :=
| Ok (a : A)
| Raise (e : exn).
Arguments Ok {A} a.
Arguments Raise {A} e.

Definition rbind {A B} (r : result A) (k : A -> result B) : result B :=
  match r with Ok a => k a | Raise e => Raise e end.

Fixpoint rmap {A B} (f : A -> result B) (l : list A) : result (list B) :=
  match l with
  | [] => Ok []
  | x :: l' => rbind (f x) (fun y => rbind (rmap f l') (fun ys => Ok (y :: ys)))
  end.

(** A computation may mutate the store before it raises, so the store is
    returned on both paths. *)
Definition M (A : Type) := state -> result A * state.

Definition ret {A} (a : A) : M A := fun st => (Ok a, st).
Definition raise {A} (e : exn) : M A := fun st => (Raise e, st).
Definition bind {A B} (m : M A) (k : A -> M B) : M B :=
  fun st => match m st with
            | (Ok a, st') => k a st'
            | (Raise e, st') => (Raise e, st')
            end.
Definition lift {A} (r : result A) : M A := fun st => (r, st).

Notation "'let*' x ':=' m 'in' k" := (bind m (fun x => k))
  (at level 10, x name, m at level 100, k at level 200).

(** A list comprehension / append loop whose body has effects. *)
Fixpoint mapM {A B} (f : A -> M B) (l : list A) : M (list B) :=
  match l with
  | [] => ret []
  | x :: l' => let* y := f x in let* ys := mapM f l' in ret (y :: ys)
  end.

(** ** numpy primitives used by the module *)

Definition zero_of (t : np_type) : scalar :=
  match t with
  | int32 => SInt 0
  | float32 | float64 => SFloat (S754_zero false)
  | complex64 | complex128 => SComplex (S754_zero false) (S754_zero false)
  end.

(** The contents of [np.zeros(n, dtype=t)]. *)
Definition zeros (n : Z) (t : np_type) : ndarray :=
  {| dtype := t; data := replicate (Z.to_nat n) (zero_of t) |}.

(** Bytes per element of each dtype. *)
Definition itemsize (t : np_type) : Z :=
  match t with
  | float32 => 4
  | complex64 => 8
  | float64 => 8
  | complex128 => 16
  | int32 => 4
  end.

(** The largest byte size numpy accepts for an array: the largest signed
    pointer-sized integer, here of a 64-bit platform. *)
Definition max_intp : Z := 2 ^ 63 - 1.

(** [np.zeros(n, dtype=t)].  numpy refuses a negative length and a length
    whose byte size exceeds [max_intp] with [ValueError], and raises
    [MemoryError] when the memory cannot be had.  Otherwise the result is a
    fresh array, appended to the heap.  A request for at most one element
    is served like the other fixed-size allocations of the interpreter
    (lists, instances), which this model never fails; larger requests are
    put to the [allocator]. *)
Definition np_zeros (n : Z) (t : np_type) : M nat :=
  fun st =>
    if n <? 0 then (Raise ValueError, st)
    else if max_intp <? n * itemsize t then (Raise ValueError, st)
    else if (1 <? n) && negb (allocator st (arrays st) n t)
         then (Raise MemoryError, st)
         else (Ok (length (arrays st)), set_arrays (arrays st ++ [zeros n t]) st).

(** [arr[0]]. *)
Definition getitem0 (r : nat) : M scalar :=
  fun st => match arrays st !! r with
            | None => (Raise DanglingReference, st)
            | Some a => match data a with
                        | [] => (Raise IndexError, st)
                        | x :: _ => (Ok x, st)
                        end
            end.

Definition np_real (x : scalar) : scalar :=
  match x with
  | SComplex re _ => SFloat re
  | _ => x
  end.

(** Python's [int(x)]: truncation toward zero. *)
Definition int_ (x : scalar) : result Z :=
  match x with
  | SInt z => Ok z
  | SFloat (S754_zero _) => Ok 0
  | SFloat (S754_infinity _) => Raise OverflowError
  | SFloat S754_nan => Raise ValueError
  | SFloat (S754_finite s m e) =>
      let a := Z.shiftl (Z.pos m) e in Ok (if s then - a else a)
  | SComplex _ _ => Raise TypeError
  end.

(** [str.encode('ascii')]. *)
Definition encode_ascii (s : text) : result (list byte) :=
  rmap (fun c => if (c <? 128)%N
                 then match Byte.of_N c with
                      | Some b => Ok b
                      | None => Raise UnicodeEncodeError
                      end
                 else Raise UnicodeEncodeError) s.

(** Modelled from the spec: [util.flatten] is imported from the package's
    [util] module, which is not part of this file.  The spec asks for list
    flattening at the very end, yielding a flat sequence of primitive values
    (numbers, byte strings, buffer references): nested lists are spliced in
    place, recursively, and every other value is a leaf. *)
Fixpoint flatten_value (v : value) : list value :=
  match v with
  | VList l => flat_map flatten_value l
  | _ => [v]
  end.

Definition flatten (l : list value) : list value := flat_map flatten_value l.

(** ** The expansion passes *)

Definition is_WorkArray (arg : value) : bool :=
  match arg with VWorkArray _ => true | _ => false end.

Definition is_DistributedMatrix (arg : value) : bool :=
  match arg with VDistributedMatrix _ => true | _ => false end.

Definition is_str (arg : value) : bool :=
  match arg with VStr _ => true | _ => false end.

Definition _expand_dm (args : list value) : list value :=
  map (fun arg =>
         match arg with
         | VDistributedMatrix dm =>
             VList [VArray (_local_array dm); VInt 1; VInt 1; VArray (desc dm)]
         | _ => arg
         end) args.

Definition _fix_string (arg : value) : result value :=
  match arg with
  | VStr s => rbind (encode_ascii s) (fun b => Ok (VBytes b))
  | _ => Ok arg
  end.

Definition _encode_strings (args : list value) : result (list value) :=
  rmap _fix_string args.

(** ** class WorkArray *)

Definition _typemap (type_ : string) : result np_type :=
  if String.eqb type_ "S" then Ok float32
  else if String.eqb type_ "C" then Ok complex64
  else if String.eqb type_ "D" then Ok float64
  else if String.eqb type_ "Z" then Ok complex128
  else if String.eqb type_ "I" then Ok int32
  else Raise KeyError.

(** [WorkArray.__init__]: the new instance is appended to [works]. *)
Definition WorkArray_init (args : list string) : M nat :=
  let* nps := lift (rmap _typemap args) in
  fun st =>
    (Ok (length (works st)),
     set_works (works st ++ [ {| types := args; np_types := nps;
                                 query_arrays := None |} ]) st).

Definition get_work (w : nat) : M WorkArray :=
  fun st => match works st !! w with
            | Some self => (Ok self, st)
            | None => (Raise DanglingReference, st)
            end.

(** [self.query_arrays = qa]. *)
Definition set_query_arrays (w : nat) (qa : list nat) : M unit :=
  fun st => match works st !! w with
            | Some self =>
                (Ok tt, set_works (<[w := {| types := types self;
                                             np_types := np_types self;
                                             query_arrays := Some qa |}]> (works st)) st)
            | None => (Raise DanglingReference, st)
            end.

Definition to_query (w : nat) : M value :=
  let* self := get_work w in
  let* qa := mapM (fun type_ => np_zeros 1 type_) (np_types self) in
  let* _ := set_query_arrays w qa in
  ret (VList (map (fun arr => VList [VArray arr; VInt (-1)]) qa)).

Definition to_compute (w : nat) : M value :=
  let* self := get_work w in
  match query_arrays self with
  | None => raise WorkQueryNotPerformed
  | Some qa =>
      let* wlens := mapM (fun arr => let* x := getitem0 arr in
                                     lift (int_ (np_real x))) qa in
      let* work_list :=
        mapM (fun p => let* buf := np_zeros (fst p) (snd p) in
                       ret (VList [VArray buf; VInt (fst p)]))
             (combine wlens (np_types self)) in
      ret (VList work_list)
  end.

Definition _expand_work (args : list value) (query : bool) : M (list value) :=
  mapM (fun arg =>
          match arg with
          | VWorkArray w => if query then to_query w else to_compute w
          | _ => ret arg
          end) args.

(** ** The invoker and the wrapper *)

(** Calling [routine] on a flat list: log the call, run the native code on
    the array heap. *)
Definition call_native (routine : native) (flat : list value) : M value :=
  fun st =>
    let st1 := log_call {| call_args := flat; call_heap := arrays st |} st in
    match routine flat (arrays st) with
    | (Some rv, h) => (Ok rv, set_arrays h st1)
    | (None, h) => (Raise NativeError, set_arrays h st1)
    end.

Definition _call_routine (routine : native) (args : list value) : M value :=
  let need_workquery := existsb is_WorkArray args in
  let exp_args := _expand_dm args in
  let* exp_args := lift (_encode_strings exp_args) in
  let* _ :=
    (if need_workquery
     then let* wq_args := _expand_work exp_args true in
          call_native routine (flatten wq_args)
     else ret VNone) in
  let* wc_args := _expand_work exp_args false in
  let* rv := call_native routine (flatten wc_args) in
  ret rv.

(** The closure returned by [_wrap_routine(rname, robj)].  The [else]
    branch calls the routine and falls off the end of the function, so the
    wrapper's value there is [None]. *)
Definition wrapper (robj : native) (args : list value) : M value :=
  fun st =>
    if expand_args st
    then _call_routine robj args st
    else (let* _ := call_native robj (flatten args) in ret VNone) st.

(** ** Vocabulary for the statements *)

(** The four flat entries a distributed matrix stands for. *)
Definition dm_tuple (dm : DistributedMatrix) : list value :=
  [VArray (_local_array dm); VInt 1; VInt 1; VArray (desc dm)].

(** A text argument is ASCII when all its code points are below 128; other
    arguments are not text. *)
Definition ascii_arg (arg : value) : bool :=
  match arg with
  | VStr s => forallb (fun c => (c <? 128)%N) s
  | _ => true
  end.

(** [int(np.real(arr[0]))] for the array that [r] refers to in heap [h]. *)
Definition read_len (h : list ndarray) (r : nat) : result Z :=
  match h !! r with
  | None => Raise DanglingReference
  | Some a => match data a with
              | [] => Raise IndexError
              | x :: _ => int_ (np_real x)
              end
  end.

(** The [[buffer, -1]] pairs of a size query whose buffers are the [k]
    references from [r] on. *)
Definition query_pairs (r k : nat) : list value :=
  map (fun arr => VList [VArray arr; VInt (-1)]) (seq r k).

(** The [[buffer, length]] pairs of the compute call, for buffers that are
    allocated one after the other from reference [r] on. *)
Fixpoint work_pairs (r : nat) (ps : list (Z * np_type)) : list value :=
  match ps with
  | [] => []
  | p :: ps' => VList [VArray r; VInt (fst p)] :: work_pairs (S r) ps'
  end.

(** The argument list after the two pure passes, [_expand_dm] and then
    [_encode_strings], when the encoding succeeds. *)
Definition pure_passes (args : list value) : list value :=
  match _encode_strings (_expand_dm args) with
  | Ok exp_args => exp_args
  | Raise _ => []
  end.

(** The instance [w] exists and [to_query] has set its [query_arrays]. *)
Definition queried (st : state) (w : nat) : Prop :=
  exists self qa, works st !! w = Some self /\ query_arrays self = Some qa.

(** The two errors this layer raises itself: the spec's EncodingError and
    InvalidState. *)
Definition internal_error (e : exn) : bool :=
  match e with
  | UnicodeEncodeError | WorkQueryNotPerformed => true
  | _ => false
  end.

(** What a call to [routine] on [flat] in heap [h] gives the caller. *)
Definition native_result (routine : native) (flat : list value)
    (h : list ndarray) : result value :=
  match fst (routine flat h) with
  | Some rv => Ok rv
  | None => Raise NativeError
  end.

(** The type codes [_typemap] has an entry for. *)
Definition valid_code (type_ : string) : bool :=
  existsb (String.eqb type_) ["S"; "C"; "D"; "Z"; "I"]%string.

(** What [__init__] and [to_query] keep true of an instance: [np_types] is
    [types] looked up in [_typemap], and [query_arrays], once set, holds one
    array per type code. *)
Definition wf_work (self : WorkArray) : Prop :=
  rmap _typemap (types self) = Ok (np_types self) /\
  forall qa, query_arrays self = Some qa -> length qa = length (np_types self).

Definition wf_state (st : state) : Prop :=
  forall (w : nat) self, works st !! w = Some self -> wf_work self.

(** An argument none of the three passes rewrites at top level. *)
Definition inert (arg : value) : bool :=
  negb (is_str arg) && negb (is_DistributedMatrix arg) && negb (is_WorkArray arg).

(** The arrays one query pass over [args] allocates: for each work array,
    in order, a one-element zero array per dtype. *)
Definition query_allocation (ws : list WorkArray) (args : list value) : list ndarray :=
  flat_map (fun arg =>
              match arg with
              | VWorkArray w =>
                  match ws !! w with
                  | Some self => map (zeros 1) (np_types self)
                  | None => []
                  end
              | _ => []
              end) args.

(** The errors that come from reading a query buffer or allocating a work
    buffer. *)
Definition data_error (e : exn) : bool :=
  match e with
  | IndexError | ValueError | OverflowError | MemoryError
  | DanglingReference => true
  | _ => false
  end.

(** [np.zeros(n, dtype=t)] succeeds on heap [h]: the length is not
    negative, the byte size is within [max_intp], and the request is for at
    most one element or the allocator serves it. *)
Definition zeros_ok (alloc : list ndarray -> Z -> np_type -> bool)
    (h : list ndarray) (n : Z) (t : np_type) : bool :=
  (0 <=? n) && (n * itemsize t <=? max_intp) && ((n <=? 1) || alloc h n t).

(** The buffers for the lengths and dtypes [ps] can be allocated one after
    the other, starting from heap [h]. *)
Fixpoint all_zeros_ok (alloc : list ndarray -> Z -> np_type -> bool)
    (h : list ndarray) (ps : list (Z * np_type)) : bool :=
  match ps with
  | [] => true
  | p :: ps' =>
      zeros_ok alloc h (fst p) (snd p)
      && all_zeros_ok alloc (h ++ [zeros (fst p) (snd p)]) ps'
  end.

(** An environment with memory for every request, and one that serves
    requests of up to [limit] bytes. *)
Definition grant_all : list ndarray -> Z -> np_type -> bool := fun _ _ _ => true.
Definition grant_upto (limit : Z) : list ndarray -> Z -> np_type -> bool :=
  fun _ n t => n * itemsize t <=? limit.

(** The number of flat entries an argument of the encoded list stands
    for in a native call: two per dtype for a work array, and for any other
    argument the entries flattening gives. *)
Definition flat_width (ws : list WorkArray) (arg : value) : nat :=
  match arg with
  | VWorkArray w =>
      match ws !! w with
      | Some self => 2 * length (np_types self)
      | None => 0
      end
  | _ => length (flatten_value arg)
  end.

(** Two instance stores that agree on the dtypes of every instance. *)
Definition same_dtypes (ws ws' : list WorkArray) : Prop :=
  forall w : nat, option_map np_types (ws !! w) = option_map np_types (ws' !! w).

(** The instance [w] holds one query buffer per dtype. *)
Definition fully_queried (st : state) (w : nat) : Prop :=
  exists self qa, works st !! w = Some self /\ query_arrays self = Some qa /\
                  length qa = length (np_types self).

(** A native routine that touches nothing and reports status 0. *)
Definition status_zero : native := fun _ h => (Some (VInt 0), h).

(** What a native routine does on a size query that answers [x] for every
    work array: [x] is stored in each array that is passed with the query
    sentinel -1. *)
Fixpoint report (x : scalar) (flat : list value) (h : list ndarray) : list ndarray :=
  match flat with
  | [] => h
  | VArray r :: rest =>
      match rest with
      | VInt (-1) :: _ =>
          report x rest
            (match h !! r with
             | Some a => <[r := {| dtype := dtype a; data := [x] |}]> h
             | None => h
             end)
      | _ => report x rest h
      end
  | _ :: rest => report x rest h
  end.

(** Native routines that answer 4, respectively -1, to every size query,
    with status 0. *)
Definition wants_four : native := fun flat h => (Some (VInt 0), report (SInt 4) flat h).
Definition wants_minus_one : native :=
  fun flat h => (Some (VInt 0), report (SInt (-1)) flat h).

Definition empty_state : state :=
  {| expand_args := true; arrays := []; works := []; calls := [];
     allocator := grant_all |}.

(** ** Reasoning about the two monads *)

Lemma bind_ok {A B} (m : M A) (k : A -> M B) st a st' :
  m st = (Ok a, st') -> bind m k st = k a st'.
Proof. intros H. unfold bind. now rewrite H. Qed.

Lemma bind_raise {A B} (m : M A) (k : A -> M B) st e st' :
  m st = (Raise e, st') -> bind m k st = (Raise e, st').
Proof. intros H. unfold bind. now rewrite H. Qed.

Lemma bind_eq {A B} (m : M A) (k : A -> M B) st r st' :
  m st = (r, st') ->
  bind m k st = match r with Ok a => k a st' | Raise e => (Raise e, st') end.
Proof. intros H. unfold bind. now rewrite H. Qed.

(** Case analysis on the first computation of a [bind] in a hypothesis. *)
Ltac bind_inv H :=
  let a := fresh "a" in
  let e := fresh "e" in
  let s := fresh "st" in
  let E := fresh "E" in
  unfold bind in H;
  match type of H with
  | context [match ?m ?st with _ => _ end] =>
      destruct (m st) as [[a | e] s] eqn:E; fold (@bind) in H
  end.

(** The same, leaving the binds of the continuation folded. *)
Ltac bind_head H :=
  let a := fresh "a" in
  let e := fresh "e" in
  let s := fresh "st" in
  let E := fresh "E" in
  unfold bind at 1 in H;
  match type of H with
  | context [match ?m ?st with _ => _ end] =>
      destruct (m st) as [[a | e] s] eqn:E
  end.

Lemma rmap_length {A B} (f : A -> result B) l out :
  rmap f l = Ok out -> length out = length l.
Proof.
  revert out. induction l as [| x l IH]; intros out H; simpl in H.
  - now inversion H.
  - destruct (f x) as [y | e]; simpl in H; [| discriminate].
    destruct (rmap f l) as [ys | e]; simpl in H; [| discriminate].
    inversion H; subst. simpl. f_equal. now apply IH.
Qed.

Lemma rmap_lookup {A B} (f : A -> result B) l out (i : nat) x :
  rmap f l = Ok out -> l !! i = Some x ->
  exists y, f x = Ok y /\ out !! i = Some y.
Proof.
  revert out i. induction l as [| x0 l IH]; intros out i H Hi; simpl in H.
  - destruct i; discriminate.
  - destruct (f x0) as [y | e] eqn:Ef; simpl in H; [| discriminate].
    destruct (rmap f l) as [ys | e]; simpl in H; [| discriminate].
    inversion H; subst. destruct i as [| i]; simpl in Hi.
    + inversion Hi; subst. exists y. now split.
    + destruct (IH ys i eq_refl Hi) as (y' & Hy & Hl). exists y'. now split.
Qed.

Lemma rmap_app {A B} (f : A -> result B) l1 l2 :
  rmap f (l1 ++ l2) =
  rbind (rmap f l1) (fun o1 => rbind (rmap f l2) (fun o2 => Ok (o1 ++ o2))).
Proof.
  induction l1 as [| x l1 IH]; simpl.
  - now destruct (rmap f l2).
  - destruct (f x); simpl; [| reflexivity].
    rewrite IH. destruct (rmap f l1); simpl; [| reflexivity].
    now destruct (rmap f l2).
Qed.

Lemma mapM_app {A B} (f : A -> M B) l1 l2 st :
  mapM f (l1 ++ l2) st =
  (let* o1 := mapM f l1 in let* o2 := mapM f l2 in ret (o1 ++ o2)) st.
Proof.
  revert st. induction l1 as [| x l1 IH]; intros st; simpl; unfold bind, ret.
  - now destruct (mapM f l2 st) as [[o2 | e] st2].
  - destruct (f x st) as [[y | e] st1]; [| reflexivity].
    rewrite IH. unfold bind, ret.
    destruct (mapM f l1 st1) as [[o1 | e] st2]; [| reflexivity].
    now destruct (mapM f l2 st2) as [[o2 | e] st3].
Qed.

Lemma mapM_length {A B} (f : A -> M B) l st out st' :
  mapM f l st = (Ok out, st') -> length out = length l.
Proof.
  revert st out. induction l as [| x l IH]; intros st out H; simpl in H.
  - now inversion H.
  - bind_inv H; [| discriminate]. bind_inv H; [| discriminate].
    inversion H; subst. simpl. f_equal. eapply IH; eauto.
Qed.

(** ** The pure passes: [_expand_dm] and [_encode_strings] *)

Lemma expand_dm_app l1 l2 : _expand_dm (l1 ++ l2) = _expand_dm l1 ++ _expand_dm l2.
Proof. apply map_app. Qed.

Lemma flatten_app l1 l2 : flatten (l1 ++ l2) = flatten l1 ++ flatten l2.
Proof. apply flat_map_app. Qed.

Lemma expand_dm_length args : length (_expand_dm args) = length args.
Proof. apply length_map. Qed.

Lemma expand_dm_lookup args (i : nat) v :
  args !! i = Some v ->
  _expand_dm args !! i =
  Some (match v with VDistributedMatrix dm => VList (dm_tuple dm) | _ => v end).
Proof.
  revert i. induction args as [| a args IH]; intros [| i] H; simpl in *;
    try discriminate.
  - now inversion H.
  - now apply IH.
Qed.



Lemma fix_string_fixed v v' : _fix_string v = Ok v' -> _fix_string v' = Ok v'.
Proof.
  destruct v; simpl; intros H; try (inversion H; subst; reflexivity).
  destruct (encode_ascii s); simpl in H; inversion H; reflexivity.
Qed.

Lemma encode_strings_fixed args out :
  _encode_strings args = Ok out -> _encode_strings out = Ok out.
Proof.
  unfold _encode_strings. revert out.
  induction args as [| a args IH]; intros out H; simpl in H.
  - now inversion H.
  - destruct (_fix_string a) as [y | e] eqn:Ea; simpl in H; [| discriminate].
    destruct (rmap _fix_string args) as [ys | e]; simpl in H; [| discriminate].
    inversion H; subst. simpl.
    rewrite (fix_string_fixed _ _ Ea). simpl. now rewrite (IH ys eq_refl).
Qed.

Lemma encode_ascii_ok (s : text) :
  Forall (fun c => (c < 128)%N) s ->
  exists b, encode_ascii s = Ok b /\ map Byte.to_N b = s.
Proof.
  unfold encode_ascii. induction 1 as [| c s Hc _ IH]; simpl.
  - now exists [].
  - destruct IH as (b & -> & Hb).
    apply N.ltb_lt in Hc as Hc'. rewrite Hc'.
    destruct (Byte.of_N c) as [b0 |] eqn:Eb.
    + exists (b0 :: b). simpl. split; [reflexivity |].
      apply Byte.to_of_N in Eb. now rewrite Eb, Hb.
    + apply Byte.of_N_None_iff in Eb. lia.
Qed.

Lemma encode_ascii_raises (s : text) :
  Exists (fun c => (128 <= c)%N) s -> encode_ascii s = Raise UnicodeEncodeError.
Proof.
  unfold encode_ascii. induction 1 as [c s Hc | c s _ IH]; simpl.
  - apply N.ltb_ge in Hc. now rewrite Hc.
  - destruct (c <? 128)%N; [| reflexivity].
    destruct (Byte.of_N c); [| reflexivity]. simpl. now rewrite IH.
Qed.

(** Every failure of [_encode_strings] is a [UnicodeEncodeError]. *)
Lemma encode_ascii_error s e : encode_ascii s = Raise e -> e = UnicodeEncodeError.
Proof.
  unfold encode_ascii. induction s as [| c s IH]; simpl; [discriminate |].
  destruct (c <? 128)%N; [| now inversion 1].
  destruct (Byte.of_N c); [| now inversion 1]. simpl.
  destruct (rmap _ s); simpl; [discriminate |]. intros H. inversion H; subst.
  now apply IH.
Qed.

Lemma encode_strings_error args e :
  _encode_strings args = Raise e -> e = UnicodeEncodeError.
Proof.
  unfold _encode_strings. induction args as [| a args IH]; simpl; [discriminate |].
  destruct (_fix_string a) as [y | e0] eqn:Ea; simpl.
  - destruct (rmap _fix_string args); simpl; [discriminate |].
    intros H; inversion H; subst. now apply IH.
  - intros H; inversion H; subst. destruct a; simpl in Ea; try discriminate.
    destruct (encode_ascii s) eqn:Es; simpl in Ea; [discriminate |].
    inversion Ea; subst. eapply encode_ascii_error; eauto.
Qed.

Lemma encode_strings_raises args (i : nat) s :
  args !! i = Some (VStr s) -> Exists (fun c => (128 <= c)%N) s ->
  _encode_strings args = Raise UnicodeEncodeError.
Proof.
  intros Hi Hs. destruct (_encode_strings args) as [out | e] eqn:E.
  - destruct (rmap_lookup _ _ _ _ _ E Hi) as (y & Hy & _).
    simpl in Hy. now rewrite (encode_ascii_raises _ Hs) in Hy.
  - f_equal. eapply encode_strings_error; eauto.
Qed.

Lemma encode_strings_frame args out :
  _encode_strings args = Ok out ->
  length out = length args /\
  forall (i : nat) v, args !! i = Some v -> is_str v = false -> out !! i = Some v.
Proof.
  intros H. split; [eapply rmap_length; eauto |].
  intros i v Hi Hv. destruct (rmap_lookup _ _ _ _ _ H Hi) as (y & Hy & Ho).
  destruct v; simpl in Hv, Hy; try discriminate; now inversion Hy; subst.
Qed.

(** ** [_expand_work] leaves everything but work arrays alone *)

Lemma expand_work_frame args query st out st' :
  _expand_work args query st = (Ok out, st') ->
  length out = length args /\
  forall (i : nat) v, args !! i = Some v -> is_WorkArray v = false -> out !! i = Some v.
Proof.
  unfold _expand_work. intros H. split; [eapply mapM_length; eauto |].
  revert st out H. induction args as [| a args IH]; intros st out H i v Hi Hv.
  - destruct i; discriminate.
  - simpl in H. bind_inv H; [| discriminate]. bind_inv H; [| discriminate].
    inversion H; subst. destruct i as [| i]; simpl in Hi.
    + inversion Hi; subst.
      destruct v; simpl in Hv; try discriminate; now inversion E; subst.
    + simpl. eapply IH; eauto.
Qed.

Lemma expand_work_no_work args query st :
  existsb is_WorkArray args = false ->
  _expand_work args query st = (Ok args, st).
Proof.
  unfold _expand_work. revert st.
  induction args as [| a args IH]; intros st H; simpl in *; [reflexivity |].
  apply orb_false_iff in H as [Ha Hr].
  assert (Hp : (match a with
                | VWorkArray w => if query then to_query w else to_compute w
                | _ => ret a
                end) st = (Ok a, st)) by (destruct a; simpl in Ha; try discriminate; reflexivity).
  rewrite (bind_ok _ _ _ _ _ Hp).
  rewrite (bind_ok _ _ _ _ _ (IH st Hr)). reflexivity.
Qed.

(** ** Claims about the pure passes *)



(** C9: string normalisation is idempotent.  Running [_encode_strings] on
    its own output gives that output again (byte strings are not text), and
    a failing first run fails the same way. *)
Theorem encode_strings_idempotent (args : list value) :
  rbind (_encode_strings args) _encode_strings = _encode_strings args.
Proof.
  destruct (_encode_strings args) as [out | e] eqn:E; simpl; [| reflexivity].
  now apply encode_strings_fixed in E.
Qed.

(** C8: each of the three passes returns a list as long as its input in
    which every argument that is not of the kind the pass rewrites stands
    unchanged at its position; flattening is what changes the number of
    entries (a lone distributed matrix becomes four). *)
Theorem passes_preserve_positions (args : list value) :
  (length (_expand_dm args) = length args /\
   forall (i : nat) v, args !! i = Some v -> is_DistributedMatrix v = false ->
                       _expand_dm args !! i = Some v) /\
  (forall out, _encode_strings args = Ok out ->
     length out = length args /\
     forall (i : nat) v, args !! i = Some v -> is_str v = false -> out !! i = Some v) /\
  (forall query st out st', _expand_work args query st = (Ok out, st') ->
     length out = length args /\
     forall (i : nat) v, args !! i = Some v -> is_WorkArray v = false -> out !! i = Some v) /\
  (forall dm, length (_expand_dm [VDistributedMatrix dm]) = 1%nat /\
              length (flatten (_expand_dm [VDistributedMatrix dm])) = 4%nat).
Proof.
  split; [| split; [| split]].
  - split; [apply expand_dm_length |].
    intros i v Hi Hv. rewrite (expand_dm_lookup _ _ _ Hi).
    destruct v; simpl in Hv; try discriminate; reflexivity.
  - intros out H. now apply encode_strings_frame.
  - intros query st out st' H. eapply expand_work_frame; eauto.
  - intros dm. split; reflexivity.
Qed.

(** C4: [to_compute] on an instance whose [query_arrays] was never set
    raises "Work query not yet performed." and changes nothing; this is the
    case for an instance fresh from the constructor, whatever type codes
    it accepted. *)
Theorem to_compute_before_query :
  (forall st w self,
     works st !! w = Some self -> query_arrays self = None ->
     to_compute w st = (Raise WorkQueryNotPerformed, st)) /\
  (forall codes st w st',
     WorkArray_init codes st = (Ok w, st') ->
     to_compute w st' = (Raise WorkQueryNotPerformed, st')).
Proof.
  assert (G : forall st w self,
             works st !! w = Some self -> query_arrays self = None ->
             to_compute w st = (Raise WorkQueryNotPerformed, st)).
  { intros st w self Hw Hq. unfold to_compute, bind, get_work.
    rewrite Hw, Hq. reflexivity. }
  split; [exact G |].
  intros codes st w st' H. unfold WorkArray_init, bind, lift in H.
  destruct (rmap _typemap codes) as [nps | e]; [| discriminate].
  inversion H; subst.
  apply (G _ _ {| types := codes; np_types := nps; query_arrays := None |});
    [| reflexivity].
  simpl. apply list_lookup_middle. reflexivity.
Qed.

Lemma to_compute_before_query_witness :
  let st := snd (WorkArray_init ["Z"; "D"; "I"]%string empty_state) in
  to_compute 0 st = (Raise WorkQueryNotPerformed, st).
Proof.
  destruct to_compute_before_query as [_ H].
  apply (H ["Z"; "D"; "I"]%string empty_state). reflexivity.
Defined.

Lemma passes_preserve_positions_witness :
  let args := [VStr [86%N]; VInt 3; VDistributedMatrix {| _local_array := 0; desc := 1 |}] in
  _expand_dm args !! 1%nat = Some (VInt 3) /\
  (forall out, _encode_strings args = Ok out -> out !! 1%nat = Some (VInt 3)) /\
  (forall out st', _expand_work args true empty_state = (Ok out, st') ->
                   out !! 1%nat = Some (VInt 3)).
Proof.
  intros args.
  destruct (passes_preserve_positions args) as ((_ & H1) & H2 & H3 & _).
  split; [| split].
  - apply H1; reflexivity.
  - intros out Ho. destruct (H2 out Ho) as [_ F]. apply F; reflexivity.
  - intros out st' Ho. destruct (H3 true empty_state out st' Ho) as [_ F].
    apply F; reflexivity.
Defined.

Lemma forallb_Forall_ascii (s : text) :
  forallb (fun c => (c <? 128)%N) s = true -> Forall (fun c => (c < 128)%N) s.
Proof.
  intros H. apply Forall_forall. intros c Hc.
  rewrite forallb_forall in H. apply N.ltb_lt, H. now apply list_elem_of_In.
Qed.

Lemma fix_string_ascii arg :
  ascii_arg arg = true -> exists v, _fix_string arg = Ok v.
Proof.
  destruct arg; simpl; intros H; try (eexists; reflexivity).
  destruct (encode_ascii_ok s (forallb_Forall_ascii _ H)) as (b & -> & _).
  simpl. eexists; reflexivity.
Qed.

Lemma encode_strings_ascii_ok args :
  forallb ascii_arg args = true -> exists out, _encode_strings args = Ok out.
Proof.
  unfold _encode_strings. induction args as [| a args IH]; simpl; intros H.
  - now exists [].
  - apply andb_true_iff in H as [Ha Hr].
    destruct (fix_string_ascii a Ha) as [v ->]. destruct (IH Hr) as [out ->].
    simpl. eexists; reflexivity.
Qed.

Lemma encode_strings_bytes args out (i : nat) s :
  _encode_strings args = Ok out -> args !! i = Some (VStr s) ->
  exists b, out !! i = Some (VBytes b) /\ map Byte.to_N b = s.
Proof.
  intros Ho Hi.
  destruct (rmap_lookup _ _ _ _ _ Ho Hi) as (y & Hy & Hl). simpl in Hy.
  destruct (encode_ascii s) as [b | e] eqn:Eb; simpl in Hy; [| discriminate].
  inversion Hy; subst. exists b. split; [assumption |].
  assert (Ha : Forall (fun c => (c < 128)%N) s).
  { apply Forall_forall. intros c Hc.
    destruct (N.ltb_spec c 128) as [Hlt | Hge]; [assumption |].
    assert (Hex : Exists (fun c => (128 <= c)%N) s)
      by (apply Exists_exists; exists c; split; assumption).
    rewrite (encode_ascii_raises _ Hex) in Eb. discriminate. }
  destruct (encode_ascii_ok s Ha) as (b' & Hb' & Hm). congruence.
Qed.

(** ** Claims about string normalisation inside the invoker *)

Lemma call_routine_encoding_error routine args st (i : nat) s :
  args !! i = Some (VStr s) -> Exists (fun c => (128 <= c)%N) s ->
  _call_routine routine args st = (Raise UnicodeEncodeError, st).
Proof.
  intros Hi Hs. unfold _call_routine.
  apply bind_raise. unfold lift. f_equal.
  eapply encode_strings_raises; eauto.
  now rewrite (expand_dm_lookup _ _ _ Hi).
Qed.

(** C6: [_encode_strings] turns every text argument of a list whose text
    is all ASCII into the bytes with the same codes, and returns the other
    arguments as they are; a text argument with a code point of 128 or more
    makes [_encode_strings] raise [UnicodeEncodeError], and [_call_routine]
    then raises it with the store, and so the log of native calls,
    untouched. *)
Theorem encode_strings_ascii_or_error :
  (forall args, forallb ascii_arg args = true ->
     exists out,
       _encode_strings args = Ok out /\ length out = length args /\
       (forall (i : nat) s, args !! i = Some (VStr s) ->
          exists b, out !! i = Some (VBytes b) /\ map Byte.to_N b = s) /\
       (forall (i : nat) v, args !! i = Some v -> is_str v = false ->
          out !! i = Some v)) /\
  (forall s : text, Forall (fun c => (c < 128)%N) s ->
     exists b, _fix_string (VStr s) = Ok (VBytes b) /\ map Byte.to_N b = s) /\
  (forall args out (i : nat) s,
     _encode_strings args = Ok out -> args !! i = Some (VStr s) ->
     exists b, out !! i = Some (VBytes b) /\ map Byte.to_N b = s) /\
  (forall routine args st (i : nat) s,
     args !! i = Some (VStr s) -> Exists (fun c => (128 <= c)%N) s ->
     _encode_strings args = Raise UnicodeEncodeError /\
     _call_routine routine args st = (Raise UnicodeEncodeError, st)) /\
  (forall arg, is_str arg = false -> _fix_string arg = Ok arg).
Proof.
  split; [| split; [| split; [| split]]].
  - intros args Ha. destruct (encode_strings_ascii_ok args Ha) as [out Ho].
    exists out. split; [exact Ho |].
    destruct (encode_strings_frame _ _ Ho) as [Hlen Hfr].
    split; [exact Hlen |]. split; [| exact Hfr].
    intros i s Hi. eapply encode_strings_bytes; eauto.
  - intros s Hs. destruct (encode_ascii_ok s Hs) as (b & Hb & Hm).
    exists b. simpl. now rewrite Hb.
  - intros args out i s Ho Hi. eapply encode_strings_bytes; eauto.
  - intros routine args st i s Hi Hs. split.
    + eapply encode_strings_raises; eauto.
    + eapply call_routine_encoding_error; eauto.
  - intros arg H. destruct arg; simpl in H; try discriminate; reflexivity.
Qed.

Lemma encode_strings_ascii_or_error_witness :
  (exists out,
     _encode_strings [VStr [86%N]; VInt 1] = Ok out /\
     (exists b, out !! 0%nat = Some (VBytes b) /\ map Byte.to_N b = [86%N]) /\
     out !! 1%nat = Some (VInt 1)) /\
  (exists b, _fix_string (VStr [86%N]) = Ok (VBytes b) /\ map Byte.to_N b = [86%N]) /\
  _call_routine status_zero [VInt 1; VStr [86%N; 233%N]] empty_state
  = (Raise UnicodeEncodeError, empty_state) /\
  _fix_string (VInt 1) = Ok (VInt 1).
Proof.
  destruct encode_strings_ascii_or_error as (H0 & H1 & _ & H3 & H4).
  split; [| split; [| split]].
  - destruct (H0 [VStr [86%N]; VInt 1] eq_refl) as (out & Ho & _ & Hb & Hf).
    exists out. split; [exact Ho |]. split.
    + apply (Hb 0%nat [86%N]). reflexivity.
    + apply (Hf 1%nat (VInt 1)); reflexivity.
  - apply H1. repeat constructor.
  - apply (H3 status_zero [VInt 1; VStr [86%N; 233%N]] empty_state 1%nat [86%N; 233%N]).
    + reflexivity.
    + apply Exists_cons_tl, Exists_cons_hd. discriminate.
  - apply H4. reflexivity.
Defined.

(** ** The wrapper with expansion switched off *)

Lemma wrapper_raw robj args st :
  expand_args st = false ->
  wrapper robj args st =
  (match fst (robj (flatten args) (arrays st)) with
   | Some _ => Ok VNone
   | None => Raise NativeError
   end,
   set_arrays (snd (robj (flatten args) (arrays st)))
     (log_call {| call_args := flatten args; call_heap := arrays st |} st)).
Proof.
  intros H. unfold wrapper. rewrite H. unfold bind, call_native, ret.
  now destruct (robj (flatten args) (arrays st)) as [[rv |] h].
Qed.

(** C3: with [expand_args] false the wrapper forwards the flattened
    argument list to the routine, once and unexpanded, but its own result
    is [None]: on the arguments [(1, [2, 3])] the routine [status_zero]
    receives [1, 2, 3] and reports status 0, and the wrapper returns
    [None]. *)
Theorem wrapper_raw_loses_status :
  let st := {| expand_args := false; arrays := []; works := []; calls := []; allocator := grant_all |} in
  let args := [VInt 1; VList [VInt 2; VInt 3]] in
  fst (status_zero (flatten args) (arrays st)) = Some (VInt 0) /\
  calls (snd (wrapper status_zero args st))
    = [ {| call_args := [VInt 1; VInt 2; VInt 3]; call_heap := [] |} ] /\
  fst (wrapper status_zero args st) = Ok VNone.
Proof. repeat split. Qed.

(** ** [WorkArray.to_query] and [WorkArray.to_compute] *)

Lemma zeros_ok_small alloc h n t : 0 <= n <= 1 -> zeros_ok alloc h n t = true.
Proof.
  intros Hn. unfold zeros_ok.
  assert (Hs : n * itemsize t <= max_intp).
  { change max_intp with 9223372036854775807. destruct t; simpl; lia. }
  apply andb_true_iff. split; [apply andb_true_iff; split |].
  - apply Z.leb_le. lia.
  - now apply Z.leb_le.
  - apply orb_true_iff. left. apply Z.leb_le. lia.
Qed.

Lemma np_zeros_ok n t st :
  zeros_ok (allocator st) (arrays st) n t = true ->
  np_zeros n t st
  = (Ok (length (arrays st)), set_arrays (arrays st ++ [zeros n t]) st).
Proof.
  unfold zeros_ok, np_zeros. intros H.
  apply andb_true_iff in H as [H Ha]. apply andb_true_iff in H as [Hn Hb].
  apply Z.leb_le in Hn, Hb.
  destruct (Z.ltb_spec n 0) as [Hn' | Hn']; [lia |].
  destruct (Z.ltb_spec max_intp (n * itemsize t)) as [Hb' | Hb']; [lia |].
  destruct (Z.ltb_spec 1 n) as [Hs | Hs]; simpl; [| reflexivity].
  apply orb_true_iff in Ha as [Ha | Ha]; [apply Z.leb_le in Ha; lia |].
  now rewrite Ha.
Qed.

Lemma np_zeros_refused n t st :
  zeros_ok (allocator st) (arrays st) n t = false ->
  exists e, np_zeros n t st = (Raise e, st) /\ (e = ValueError \/ e = MemoryError).
Proof.
  unfold zeros_ok, np_zeros. intros H.
  destruct (Z.ltb_spec n 0) as [Hn | Hn]; [exists ValueError; auto |].
  destruct (Z.ltb_spec max_intp (n * itemsize t)) as [Hb | Hb];
    [exists ValueError; auto |].
  replace (0 <=? n) with true in H by (symmetry; apply Z.leb_le; lia).
  replace (n * itemsize t <=? max_intp) with true in H
    by (symmetry; apply Z.leb_le; lia).
  simpl in H. apply orb_false_iff in H as [Hs Ha]. apply Z.leb_gt in Hs.
  replace (1 <? n) with true by (symmetry; apply Z.ltb_lt; lia).
  rewrite Ha. simpl. exists MemoryError. auto.
Qed.

Lemma np_zeros_outcome n t st r st' :
  np_zeros n t st = (r, st') ->
  (r = Ok (length (arrays st)) /\
   st' = set_arrays (arrays st ++ [zeros n t]) st) \/
  (st' = st /\ (r = Raise ValueError \/ r = Raise MemoryError)).
Proof.
  intros H. destruct (zeros_ok (allocator st) (arrays st) n t) eqn:Z.
  - rewrite (np_zeros_ok _ _ _ Z) in H. inversion H; subst. now left.
  - destruct (np_zeros_refused _ _ _ Z) as (e & He & Hk). rewrite He in H.
    inversion H; subst. right. split; [reflexivity |].
    destruct Hk as [-> | ->]; auto.
Qed.

Lemma alloc_query_arrays tys st :
  mapM (fun type_ => np_zeros 1 type_) tys st
  = (Ok (seq (length (arrays st)) (length tys)),
     set_arrays (arrays st ++ map (zeros 1) tys) st).
Proof.
  revert st. induction tys as [| t tys IH]; intros st; simpl.
  - unfold ret, set_arrays. rewrite app_nil_r. now destruct st.
  - rewrite (bind_ok _ _ _ _ _
               (np_zeros_ok 1 t st (zeros_ok_small _ _ 1 t ltac:(lia)))).
    rewrite (bind_ok _ _ _ _ _ (IH _)). unfold ret, set_arrays. simpl.
    rewrite length_app, Nat.add_1_r, <- app_assoc. reflexivity.
Qed.

Lemma to_query_spec w self st :
  works st !! w = Some self ->
  to_query w st
  = (Ok (VList (query_pairs (length (arrays st)) (length (np_types self)))),
     {| expand_args := expand_args st;
        arrays := arrays st ++ map (zeros 1) (np_types self);
        works := <[w := {| types := types self; np_types := np_types self;
                           query_arrays := Some (seq (length (arrays st))
                                                     (length (np_types self))) |}]>
                   (works st);
        calls := calls st; allocator := allocator st |}).
Proof.
  intros Hw. unfold to_query.
  rewrite (bind_ok _ _ st self st) by (unfold get_work; now rewrite Hw).
  rewrite (bind_ok _ _ _ _ _ (alloc_query_arrays _ _)).
  unfold bind, set_query_arrays, ret. simpl. rewrite Hw. reflexivity.
Qed.

Lemma read_one r st :
  (let* x := getitem0 r in lift (int_ (np_real x))) st = (read_len (arrays st) r, st).
Proof.
  unfold bind, getitem0, read_len, lift.
  destruct (arrays st !! r) as [a |]; [| reflexivity].
  now destruct (data a).
Qed.

Lemma read_lens qa st :
  mapM (fun arr => let* x := getitem0 arr in lift (int_ (np_real x))) qa st
  = (rmap (read_len (arrays st)) qa, st).
Proof.
  induction qa as [| r qa IH]; simpl; [reflexivity |].
  rewrite (bind_eq _ _ _ _ _ (read_one r st)).
  destruct (read_len (arrays st) r) as [n | e]; simpl; [| reflexivity].
  rewrite (bind_eq _ _ _ _ _ IH).
  destruct (rmap (read_len (arrays st)) qa); reflexivity.
Qed.

Lemma alloc_work_arrays ps st :
  all_zeros_ok (allocator st) (arrays st) ps = true ->
  mapM (fun p : Z * np_type =>
          let* buf := np_zeros (fst p) (snd p) in
          ret (VList [VArray buf; VInt (fst p)])) ps st
  = (Ok (work_pairs (length (arrays st)) ps),
     set_arrays (arrays st ++ map (fun p => zeros (fst p) (snd p)) ps) st).
Proof.
  revert st. induction ps as [| p ps IH]; intros st H; simpl.
  - unfold ret, set_arrays. rewrite app_nil_r. now destruct st.
  - simpl in H. apply andb_true_iff in H as [Hp Hr].
    rewrite (bind_ok _ _ st (VList [VArray (length (arrays st)); VInt (fst p)])
               (set_arrays (arrays st ++ [zeros (fst p) (snd p)]) st))
      by (now rewrite (bind_ok _ _ _ _ _ (np_zeros_ok _ _ _ Hp))).
    rewrite (bind_ok _ _ _ _ _
               (IH (set_arrays (arrays st ++ [zeros (fst p) (snd p)]) st) Hr)).
    unfold ret, set_arrays. simpl.
    rewrite length_app, Nat.add_1_r, <- app_assoc. reflexivity.
Qed.

Lemma to_compute_spec w self qa wlens st :
  works st !! w = Some self ->
  query_arrays self = Some qa ->
  rmap (read_len (arrays st)) qa = Ok wlens ->
  all_zeros_ok (allocator st) (arrays st) (combine wlens (np_types self)) = true ->
  to_compute w st
  = (Ok (VList (work_pairs (length (arrays st)) (combine wlens (np_types self)))),
     set_arrays (arrays st ++ map (fun p => zeros (fst p) (snd p))
                                  (combine wlens (np_types self))) st).
Proof.
  intros Hw Hq Hl Hp. unfold to_compute.
  rewrite (bind_ok _ _ st self st) by (unfold get_work; now rewrite Hw).
  rewrite Hq.
  rewrite (bind_ok _ _ st wlens st) by (now rewrite read_lens, Hl).
  rewrite (bind_ok _ _ _ _ _ (alloc_work_arrays _ _ Hp)). reflexivity.
Qed.

Lemma read_len_zero t : int_ (np_real (zero_of t)) = Ok 0.
Proof. now destruct t. Qed.

Lemma read_fresh_query_arrays tys h :
  rmap (read_len (h ++ map (zeros 1) tys)) (seq (length h) (length tys))
  = Ok (replicate (length tys) 0).
Proof.
  revert h. induction tys as [| t tys IH]; intros h; simpl; [reflexivity |].
  unfold read_len at 1. rewrite list_lookup_middle by reflexivity. simpl.
  rewrite read_len_zero. simpl.
  replace (h ++ zeros 1 t :: map (zeros 1) tys)
    with ((h ++ [zeros 1 t]) ++ map (zeros 1) tys) by now rewrite <- app_assoc.
  replace (S (length h)) with (length (h ++ [zeros 1 t]))
    by (rewrite length_app; simpl; lia).
  rewrite IH. reflexivity.
Qed.

Lemma work_pairs_zero r tys :
  work_pairs r (combine (replicate (length tys) 0) tys)
  = map (fun buf => VList [VArray buf; VInt 0]) (seq r (length tys)).
Proof.
  revert r. induction tys as [| t tys IH]; intros r; simpl; [reflexivity |].
  now rewrite IH.
Qed.

Lemma zeros_zero tys :
  map (fun p : Z * np_type => zeros (fst p) (snd p))
      (combine (replicate (length tys) 0) tys)
  = map (fun t => {| dtype := t; data := [] |}) tys.
Proof. induction tys as [| t tys IH]; simpl; [reflexivity | now rewrite IH]. Qed.

Lemma combine_zero_ok alloc tys h :
  all_zeros_ok alloc h (combine (replicate (length tys) 0) tys) = true.
Proof.
  revert h. induction tys as [| t tys IH]; intros h; [reflexivity |].
  change (combine (replicate (length (t :: tys)) 0) (t :: tys))
    with ((0, t) :: combine (replicate (length tys) 0) tys).
  cbn [all_zeros_ok fst snd].
  rewrite IH, (zeros_ok_small alloc h 0 t) by lia. reflexivity.
Qed.

(** C10: [to_query] overwrites [query_arrays], whatever it held, with
    references to new arrays, one per type code, each holding a single zero
    of its dtype, and returns them paired with -1.  [to_compute] run right
    after it reads length 0 from every one of them: it returns one
    [[buffer, 0]] pair per type code, each buffer a new, empty array of its
    dtype. *)
Theorem to_query_resets_then_to_compute_empty (w : nat) (self : WorkArray) (st : state) :
  works st !! w = Some self ->
  let n := length (arrays st) in
  let k := length (np_types self) in
  let st1 := snd (to_query w st) in
  fst (to_query w st)
    = Ok (VList (map (fun arr => VList [VArray arr; VInt (-1)]) (seq n k))) /\
  arrays st1
    = arrays st ++ map (fun t => {| dtype := t; data := [zero_of t] |}) (np_types self) /\
  works st1 !! w
    = Some {| types := types self; np_types := np_types self;
              query_arrays := Some (seq n k) |} /\
  to_compute w st1
    = (Ok (VList (map (fun buf => VList [VArray buf; VInt 0]) (seq (n + k) k))),
       set_arrays (arrays st1 ++ map (fun t => {| dtype := t; data := [] |})
                                     (np_types self)) st1).
Proof.
  intros Hw n k st1. subst n k st1. rewrite (to_query_spec _ _ _ Hw). simpl.
  assert (Hlt : (w < length (works st))%nat) by (eapply lookup_lt_Some; eauto).
  split; [reflexivity |]. split; [reflexivity |].
  split; [now apply list_lookup_insert_eq |].
  rewrite (to_compute_spec w
             {| types := types self; np_types := np_types self;
                query_arrays := Some (seq (length (arrays st))
                                          (length (np_types self))) |}
             (seq (length (arrays st)) (length (np_types self)))
             (replicate (length (np_types self)) 0)).
  - simpl. rewrite work_pairs_zero, zeros_zero, length_app, length_map. reflexivity.
  - simpl. now apply list_lookup_insert_eq.
  - reflexivity.
  - simpl. apply read_fresh_query_arrays.
  - simpl. apply combine_zero_ok.
Qed.

Lemma to_query_resets_then_to_compute_empty_witness :
  let st := {| expand_args := true; arrays := [zeros 2 float64];
               works := [ {| types := ["Z"; "I"]%string;
                             np_types := [complex128; int32];
                             query_arrays := Some [0%nat; 0%nat] |} ];
               calls := []; allocator := grant_all |} in
  fst (to_compute 0 (snd (to_query 0 st)))
  = Ok (VList [VList [VArray 3; VInt 0]; VList [VArray 4; VInt 0]]).
Proof.
  intros st.
  destruct (to_query_resets_then_to_compute_empty 0 _ st eq_refl) as (_ & _ & _ & H).
  rewrite H. reflexivity.
Defined.

(** ** The invoker without work arrays *)

Lemma expand_dm_is_WorkArray args :
  existsb is_WorkArray (_expand_dm args) = existsb is_WorkArray args.
Proof.
  unfold _expand_dm. induction args as [| a args IH]; [reflexivity |].
  cbn [map existsb]. rewrite IH. now destruct a.
Qed.

Lemma encode_strings_is_WorkArray args out :
  _encode_strings args = Ok out ->
  existsb is_WorkArray out = existsb is_WorkArray args.
Proof.
  unfold _encode_strings. revert out.
  induction args as [| a args IH]; intros out H; simpl in H.
  - now inversion H.
  - destruct (_fix_string a) as [y | e] eqn:Ea; simpl in H; [| discriminate].
    destruct (rmap _fix_string args) as [ys | e]; simpl in H; [| discriminate].
    inversion H; subst. simpl. rewrite (IH ys eq_refl). f_equal.
    destruct a; simpl in Ea; try (inversion Ea; subst; reflexivity).
    destruct (encode_ascii s); simpl in Ea; inversion Ea; reflexivity.
Qed.

Lemma encode_strings_ascii args :
  forallb ascii_arg args = true ->
  _encode_strings (_expand_dm args) = Ok (pure_passes args).
Proof.
  intros H. unfold pure_passes.
  enough (G : exists out, _encode_strings (_expand_dm args) = Ok out)
    by (destruct G as [out ->]; reflexivity).
  unfold _encode_strings, _expand_dm.
  induction args as [| a args IH]; cbn [map rmap].
  - now exists [].
  - simpl in H. apply andb_true_iff in H as [Ha Hr].
    destruct (IH Hr) as [out Ho]. rewrite Ho.
    destruct a; simpl; try (eexists; reflexivity).
    simpl in Ha. destruct (encode_ascii_ok s (forallb_Forall_ascii _ Ha)) as (b & -> & _).
    simpl. eexists; reflexivity.
Qed.

Lemma pure_passes_app l1 l2 :
  forallb ascii_arg l1 = true -> forallb ascii_arg l2 = true ->
  pure_passes (l1 ++ l2) = pure_passes l1 ++ pure_passes l2.
Proof.
  intros H1 H2. unfold pure_passes at 1.
  rewrite expand_dm_app. unfold _encode_strings. rewrite rmap_app.
  fold (_encode_strings (_expand_dm l1)). fold (_encode_strings (_expand_dm l2)).
  now rewrite (encode_strings_ascii _ H1), (encode_strings_ascii _ H2).
Qed.

Lemma pure_passes_no_work args :
  forallb ascii_arg args = true ->
  existsb is_WorkArray (pure_passes args) = existsb is_WorkArray args.
Proof.
  intros H. rewrite (encode_strings_is_WorkArray _ _ (encode_strings_ascii _ H)).
  apply expand_dm_is_WorkArray.
Qed.

Lemma call_native_eq routine flat st :
  call_native routine flat st
  = (native_result routine flat (arrays st),
     set_arrays (snd (routine flat (arrays st)))
       (log_call {| call_args := flat; call_heap := arrays st |} st)).
Proof.
  unfold call_native, native_result.
  now destruct (routine flat (arrays st)) as [[rv |] h].
Qed.

Lemma bind_ret_r {A} (m : M A) st : bind m (fun a => ret a) st = m st.
Proof. unfold bind, ret. now destruct (m st) as [[a | e] st']. Qed.

(** C2 (amended): for an argument list without a work array whose text
    arguments are all ASCII, [_call_routine] makes exactly one native call.
    Its flat argument list is the flattening of the list obtained by
    [_expand_dm] and [_encode_strings] alone, which has one entry per
    logical argument; the call sees the heap as it was, and its outcome is
    the invoker's outcome. *)
Theorem call_routine_without_work (routine : native) (args : list value) (st : state) :
  existsb is_WorkArray args = false ->
  forallb ascii_arg args = true ->
  _encode_strings (_expand_dm args) = Ok (pure_passes args) /\
  length (pure_passes args) = length args /\
  calls (snd (_call_routine routine args st))
    = calls st ++ [ {| call_args := flatten (pure_passes args);
                       call_heap := arrays st |} ] /\
  fst (_call_routine routine args st)
    = native_result routine (flatten (pure_passes args)) (arrays st).
Proof.
  intros Hw Ha. pose proof (encode_strings_ascii _ Ha) as He.
  split; [exact He |]. split.
  { rewrite (proj1 (encode_strings_frame _ _ He)). apply expand_dm_length. }
  assert (Hc : _call_routine routine args st
               = call_native routine (flatten (pure_passes args)) st).
  { unfold _call_routine. rewrite Hw.
    rewrite (bind_ok _ _ st (pure_passes args) st) by (unfold lift; now rewrite He).
    rewrite (bind_ok _ _ st VNone st) by reflexivity.
    rewrite (bind_ok _ _ st (pure_passes args) st).
    - apply bind_ret_r.
    - apply expand_work_no_work. now rewrite pure_passes_no_work. }
  rewrite Hc, call_native_eq. split; reflexivity.
Qed.

Lemma call_routine_without_work_witness :
  let args := [VStr [86%N]; VDistributedMatrix {| _local_array := 0; desc := 1 |}; VInt 5] in
  calls (snd (_call_routine status_zero args empty_state))
  = [ {| call_args := [VBytes ["V"%byte]; VArray 0; VInt 1; VInt 1; VArray 1; VInt 5];
         call_heap := [] |} ].
Proof.
  intros args.
  destruct (call_routine_without_work status_zero args empty_state eq_refl eq_refl)
    as (_ & _ & H & _).
  rewrite H. reflexivity.
Defined.

(** C2 as stated fails: the one-argument list holding the text "é" (code
    point 233) has no work array, and the invoker makes no native call on
    it. *)
Lemma call_routine_without_work_counterexample :
  ~ (forall (routine : native) (args : list value) (st : state),
       existsb is_WorkArray args = false ->
       exists c, calls (snd (_call_routine routine args st)) = calls st ++ [c]).
Proof.
  intros H.
  destruct (H status_zero [VStr [233%N]] empty_state eq_refl) as [c Hc].
  vm_compute in Hc. discriminate.
Qed.

(** ** Which errors can follow a native call *)

Lemma rmap_error {A B} (f : A -> result B) l e :
  rmap f l = Raise e -> exists x, In x l /\ f x = Raise e.
Proof.
  induction l as [| x l IH]; simpl; [discriminate |].
  destruct (f x) as [y | e0] eqn:Ef; simpl.
  - destruct (rmap f l) as [ys | e1]; simpl; [discriminate |].
    intros H; inversion H; subst.
    destruct (IH eq_refl) as (x' & Hin & Hx). exists x'. auto.
  - intros H; inversion H; subst. exists x. auto.
Qed.

Lemma read_len_error h r e : read_len h r = Raise e -> internal_error e = false.
Proof.
  unfold read_len. destruct (h !! r) as [a |]; [| now inversion 1].
  destruct (data a) as [| x tl]; [now inversion 1 |].
  destruct x as [z | f | re im]; simpl.
  - discriminate.
  - destruct f; inversion 1; reflexivity.
  - destruct re; inversion 1; reflexivity.
Qed.

Lemma alloc_one_outcome (p : Z * np_type) st r st' :
  (let* buf := np_zeros (fst p) (snd p) in
   ret (VList [VArray buf; VInt (fst p)])) st = (r, st') ->
  works st' = works st /\ calls st' = calls st /\
  (forall e, r = Raise e -> e = ValueError \/ e = MemoryError) /\
  (forall v, r = Ok v -> v = VList [VArray (length (arrays st)); VInt (fst p)]).
Proof.
  intros H. bind_head H.
  - destruct (np_zeros_outcome _ _ _ _ _ E) as [[Hr ->] | [_ [Hr | Hr]]];
      try discriminate.
    inversion Hr; subst. inversion H; subst.
    repeat split; try discriminate. now inversion 1.
  - destruct (np_zeros_outcome _ _ _ _ _ E) as [[Hr _] | [-> Hr]];
      [discriminate |].
    inversion H; subst. repeat split; try discriminate.
    intros e' He'. inversion He'; subst.
    destruct Hr as [Hr | Hr]; inversion Hr; auto.
Qed.

Lemma alloc_work_arrays_outcome ps st r st' :
  mapM (fun p : Z * np_type =>
          let* buf := np_zeros (fst p) (snd p) in
          ret (VList [VArray buf; VInt (fst p)])) ps st = (r, st') ->
  works st' = works st /\ calls st' = calls st /\
  forall e, r = Raise e -> internal_error e = false.
Proof.
  revert st r st'. induction ps as [| p ps IH]; intros st r st' H; simpl in H.
  - inversion H; subst. repeat split. discriminate.
  - bind_head H.
    + destruct (alloc_one_outcome _ _ _ _ E) as (Hw1 & Hc1 & _).
      bind_head H.
      * inversion H; subst. destruct (IH _ _ _ E0) as (Hw & Hc & _).
        split; [congruence |]. split; [congruence | discriminate].
      * inversion H; subst. destruct (IH _ _ _ E0) as (Hw & Hc & He).
        split; [congruence |]. split; [congruence |].
        intros e' He'. inversion He'; subst. now apply He.
    + inversion H; subst. destruct (alloc_one_outcome _ _ _ _ E) as (Hw1 & Hc1 & He & _).
      split; [assumption |]. split; [assumption |].
      intros e' He'. inversion He'; subst.
      destruct (He e' eq_refl) as [-> | ->]; reflexivity.
Qed.

Lemma to_compute_outcome w st r st' :
  to_compute w st = (r, st') ->
  works st' = works st /\ calls st' = calls st /\
  (queried st w -> forall e, r = Raise e -> internal_error e = false).
Proof.
  unfold to_compute, bind at 1, get_work. intros H.
  destruct (works st !! w) as [self |] eqn:Hw.
  - destruct (query_arrays self) as [qa |] eqn:Hq.
    + rewrite (bind_eq _ _ _ _ _ (read_lens qa st)) in H.
      destruct (rmap (read_len (arrays st)) qa) as [wlens | e0] eqn:Hl.
      * bind_inv H.
        -- inversion H; subst. destruct (alloc_work_arrays_outcome _ _ _ _ E) as (? & ? & _).
           repeat split; try assumption. discriminate.
        -- inversion H; subst. destruct (alloc_work_arrays_outcome _ _ _ _ E) as (? & ? & He).
           repeat split; try assumption. intros _ e' He'. inversion He'; subst.
           now apply He.
      * inversion H; subst. repeat split. intros _ e' He'. inversion He'; subst.
        destruct (rmap_error _ _ _ Hl) as (x & _ & Hx).
        eapply read_len_error; eauto.
    + inversion H; subst. repeat split.
      intros (self' & qa & Hw' & Hq'). congruence.
  - inversion H; subst. repeat split. intros _ e He. inversion He; reflexivity.
Qed.

Lemma to_query_outcome w st r st' :
  to_query w st = (r, st') ->
  calls st' = calls st /\
  (forall e, r = Raise e -> internal_error e = false) /\
  (forall v, r = Ok v ->
     queried st' w /\ forall w', queried st w' -> queried st' w').
Proof.
  intros H. destruct (works st !! w) as [self |] eqn:Hw.
  - rewrite (to_query_spec _ _ _ Hw) in H. inversion H; subst; clear H.
    assert (Hlt : (w < length (works st))%nat) by (eapply lookup_lt_Some; eauto).
    split; [reflexivity |]. split; [discriminate |]. intros v _. split.
    + eexists _, _. simpl. split; [now apply list_lookup_insert_eq | reflexivity].
    + intros w' (self' & qa' & Hw' & Hq'). destruct (Nat.eq_dec w w') as [-> | Hne].
      * eexists _, _. simpl. split; [now apply list_lookup_insert_eq | reflexivity].
      * exists self', qa'. simpl. split; [| assumption].
        now rewrite list_lookup_insert_ne.
  - unfold to_query, bind at 1, get_work in H. rewrite Hw in H.
    inversion H; subst. split; [reflexivity |]. split; [| discriminate].
    intros e He. inversion He; reflexivity.
Qed.

Lemma expand_work_query_outcome args st r st' :
  _expand_work args true st = (r, st') ->
  calls st' = calls st /\
  (forall e, r = Raise e -> internal_error e = false) /\
  (forall out, r = Ok out ->
     (forall w, queried st w -> queried st' w) /\
     (forall w, In (VWorkArray w) args -> queried st' w)).
Proof.
  unfold _expand_work. revert st r st'.
  induction args as [| a args IH]; intros st r st' H; simpl in H.
  - inversion H; subst. split; [reflexivity |]. split; [discriminate |].
    intros out _. split; [auto | intros w []].
  - unfold bind at 1 in H.
    destruct ((match a with
               | VWorkArray w => to_query w
               | _ => ret a
               end) st) as [[v | e] st1] eqn:Ea.
    + assert (Hs : calls st1 = calls st /\
                   (forall w, queried st w -> queried st1 w) /\
                   (forall w, a = VWorkArray w -> queried st1 w)).
      { destruct a; try (inversion Ea; subst; repeat split; auto; discriminate).
        destruct (to_query_outcome _ _ _ _ Ea) as (Hc & _ & Hq).
        destruct (Hq v eq_refl) as [Hq1 Hq2].
        repeat split; auto. intros w' Hw'. now inversion Hw'; subst. }
      destruct Hs as (Hc1 & Hk1 & Hn1).
      bind_inv H.
      * inversion H; subst. destruct (IH _ _ _ E) as (Hc & _ & Hq).
        destruct (Hq a0 eq_refl) as [Hq1 Hq2].
        split; [congruence |]. split; [discriminate |]. intros out _. split.
        -- auto.
        -- intros w [Hw | Hw]; [apply Hq1, Hn1; now symmetry | now apply Hq2].
      * inversion H; subst. destruct (IH _ _ _ E) as (Hc & He & _).
        split; [congruence |]. split; [| discriminate].
        intros e' He'. inversion He'; subst. now apply He.
    + inversion H; subst.
      destruct a; try (inversion Ea; fail).
      destruct (to_query_outcome _ _ _ _ Ea) as (Hc & He & _).
      split; [assumption |]. split; [| discriminate].
      intros e' He'. inversion He'; subst. now apply He.
Qed.

Lemma expand_work_compute_outcome args st r st' :
  _expand_work args false st = (r, st') ->
  works st' = works st /\ calls st' = calls st /\
  ((forall w, In (VWorkArray w) args -> queried st w) ->
   forall e, r = Raise e -> internal_error e = false).
Proof.
  unfold _expand_work. revert st r st'.
  induction args as [| a args IH]; intros st r st' H; simpl in H.
  - inversion H; subst. repeat split. discriminate.
  - unfold bind at 1 in H.
    destruct ((match a with
               | VWorkArray w => to_compute w
               | _ => ret a
               end) st) as [[v | e] st1] eqn:Ea.
    + assert (Hs : works st1 = works st /\ calls st1 = calls st).
      { destruct a; try (inversion Ea; subst; split; reflexivity).
        destruct (to_compute_outcome _ _ _ _ Ea) as (? & ? & _). now split. }
      destruct Hs as [Hw1 Hc1].
      bind_inv H.
      * inversion H; subst. destruct (IH _ _ _ E) as (? & ? & _).
        split; [congruence |]. split; [congruence |]. discriminate.
      * inversion H; subst. destruct (IH _ _ _ E) as (? & ? & He).
        split; [congruence |]. split; [congruence |].
        intros Hq e' He'. inversion He'; subst. apply He; [| reflexivity].
        intros w Hw. destruct (Hq w (or_intror Hw)) as (self & qa & Hl & Hqa).
        exists self, qa. split; [congruence | assumption].
    + inversion H; subst.
      destruct a; try (inversion Ea; fail).
      destruct (to_compute_outcome _ _ _ _ Ea) as (? & ? & He).
      repeat split; try assumption.
      intros Hq e' He'. inversion He'; subst. apply He; [| reflexivity].
      apply Hq. now left.
Qed.

Lemma call_native_outcome routine flat st r st' :
  call_native routine flat st = (r, st') ->
  works st' = works st /\ forall e, r = Raise e -> internal_error e = false.
Proof.
  unfold call_native. destruct (routine flat (arrays st)) as [[rv |] h];
    intros H; inversion H; subst; split; try reflexivity; try discriminate.
  intros e He. inversion He; reflexivity.
Qed.

(** C7: when [_call_routine] ends in one of the layer's own two errors,
    [UnicodeEncodeError] or "Work query not yet performed.", it has made no
    native call and has left the store as it found it. *)
Theorem internal_error_before_native_call
    (routine : native) (args : list value) (st st' : state) (e : exn) :
  _call_routine routine args st = (Raise e, st') ->
  internal_error e = true ->
  calls st' = calls st /\ st' = st.
Proof.
  unfold _call_routine. intros H Hi.
  unfold bind at 1, lift in H.
  destruct (_encode_strings (_expand_dm args)) as [exp | e0] eqn:He.
  2: { inversion H; subst. now split. }
  exfalso.
  assert (Hex : existsb is_WorkArray exp = existsb is_WorkArray args).
  { rewrite (encode_strings_is_WorkArray _ _ He). apply expand_dm_is_WorkArray. }
  assert (Hno : forall st2,
             (forall w, In (VWorkArray w) exp -> queried st2 w) ->
             forall e2 st3,
               (let* wc_args := _expand_work exp false in
                let* rv := call_native routine (flatten wc_args) in ret rv) st2
               = (Raise e2, st3) ->
               internal_error e2 = false).
  { intros st2 Hq e2 st3 H2. bind_head H2.
    - bind_head H2; [discriminate |]. inversion H2; subst.
      now apply (proj2 (call_native_outcome _ _ _ _ _ E0)).
    - inversion H2; subst.
      destruct (expand_work_compute_outcome _ _ _ _ E) as (_ & _ & Hn).
      now apply Hn. }
  destruct (existsb is_WorkArray args) eqn:Hn.
  - bind_head H.
    + bind_head E; [| discriminate].
      destruct (expand_work_query_outcome _ _ _ _ E0) as (_ & _ & Hq).
      destruct (Hq a0 eq_refl) as [_ Hq2].
      destruct (call_native_outcome _ _ _ _ _ E) as [Hw _].
      assert (Hf : internal_error e = false); [| congruence].
      eapply (Hno st0); [| exact H].
      intros w Hin. destruct (Hq2 w Hin) as (self & qa & Hl & Hqa).
      exists self, qa. split; [congruence | assumption].
    + inversion H; subst. bind_head E.
      * destruct (call_native_outcome _ _ _ _ _ E) as [_ Hne].
        rewrite (Hne e eq_refl) in Hi. discriminate.
      * inversion E; subst.
        destruct (expand_work_query_outcome _ _ _ _ E0) as (_ & Hne & _).
        rewrite (Hne e eq_refl) in Hi. discriminate.
  - rewrite (bind_ok _ _ st VNone st) in H by reflexivity.
    assert (Hf : internal_error e = false); [| congruence].
    eapply (Hno st); [| exact H].
    intros w Hin. exfalso.
    assert (Ht : existsb is_WorkArray exp = true).
    { apply existsb_exists. exists (VWorkArray w). now split. }
    congruence.
Qed.

Lemma internal_error_before_native_call_witness :
  let st := snd (WorkArray_init ["D"]%string empty_state) in
  calls (snd (_call_routine wants_four [VWorkArray 0; VStr [233%N]] st)) = calls st.
Proof.
  intros st.
  refine (proj1 (internal_error_before_native_call wants_four
                   [VWorkArray 0; VStr [233%N]] st
                   (snd (_call_routine wants_four [VWorkArray 0; VStr [233%N]] st))
                   UnicodeEncodeError _ _)); reflexivity.
Defined.

(** ** The invoker with one work array *)

Lemma expand_work_single pre w post (query : bool) st r st' :
  existsb is_WorkArray pre = false ->
  existsb is_WorkArray post = false ->
  (if query then to_query w else to_compute w) st = (r, st') ->
  _expand_work (pre ++ VWorkArray w :: post) query st
  = (match r with Ok v => Ok (pre ++ v :: post) | Raise e => Raise e end, st').
Proof.
  intros Hpre Hpost H.
  assert (T : _expand_work (VWorkArray w :: post) query st
              = (match r with Ok v => Ok (v :: post) | Raise e => Raise e end, st')).
  { unfold _expand_work. cbn [mapM]. rewrite (bind_eq _ _ _ _ _ H).
    destruct r as [v | e]; [| reflexivity].
    now rewrite (bind_ok _ _ _ _ _ (expand_work_no_work post query st' Hpost)). }
  unfold _expand_work in *. rewrite mapM_app.
  rewrite (bind_ok _ _ _ _ _ (expand_work_no_work pre query st Hpre)).
  rewrite (bind_eq _ _ _ _ _ T). now destruct r.
Qed.

Lemma zeros_shape n t :
  dtype (zeros n t) = t /\ length (data (zeros n t)) = Z.to_nat n /\
  Forall (fun x : scalar => x = zero_of t) (data (zeros n t)).
Proof.
  unfold zeros. simpl. split; [reflexivity |]. split.
  - apply length_replicate.
  - apply Forall_forall. intros x Hx. now apply elem_of_replicate in Hx.
Qed.

(** C1 (amended): take an argument list with exactly one work array, of
    dtypes [T1; T2; T3], whose text arguments are all ASCII, and suppose the
    first native call returns and leaves in each query buffer a first
    element whose real part converts to an integer that [np.zeros] accepts
    as the length of the work buffer (not negative, a byte size within
    [max_intp], and memory for it).  Then [_call_routine] makes exactly two
    native calls.  The first has, at the
    work array's place, three [buffer, -1] pairs whose buffers are new
    one-element zero arrays of dtypes T1, T2, T3.  The second has three
    [buffer, length] pairs there: each length is the integer read from the
    first element of the matching query buffer after the first call, and
    each buffer is a new zero array of that length and dtype.  The second
    call's outcome is the invoker's outcome. *)
Theorem call_routine_one_work_array
    (routine : native) (pre post : list value) (w : nat) (self : WorkArray)
    (T1 T2 T3 : np_type) (st : state)
    (rv1 : value) (h1 : list ndarray) (n1 n2 n3 : Z) :
  existsb is_WorkArray pre = false ->
  existsb is_WorkArray post = false ->
  forallb ascii_arg pre = true ->
  forallb ascii_arg post = true ->
  works st !! w = Some self ->
  np_types self = [T1; T2; T3] ->
  let b := length (arrays st) in
  let heap1 := arrays st ++ [zeros 1 T1; zeros 1 T2; zeros 1 T3] in
  let flat1 :=
    flatten (pure_passes pre)
    ++ [VArray b; VInt (-1); VArray (S b); VInt (-1); VArray (S (S b)); VInt (-1)]
    ++ flatten (pure_passes post) in
  routine flat1 heap1 = (Some rv1, h1) ->
  read_len h1 b = Ok n1 ->
  read_len h1 (S b) = Ok n2 ->
  read_len h1 (S (S b)) = Ok n3 ->
  all_zeros_ok (allocator st) h1 [(n1, T1); (n2, T2); (n3, T3)] = true ->
  let c := length h1 in
  let heap2 := h1 ++ [zeros n1 T1; zeros n2 T2; zeros n3 T3] in
  let flat2 :=
    flatten (pure_passes pre)
    ++ [VArray c; VInt n1; VArray (S c); VInt n2; VArray (S (S c)); VInt n3]
    ++ flatten (pure_passes post) in
  _encode_strings (_expand_dm (pre ++ VWorkArray w :: post))
    = Ok (pure_passes pre ++ VWorkArray w :: pure_passes post) /\
  calls (snd (_call_routine routine (pre ++ VWorkArray w :: post) st))
    = calls st ++ [ {| call_args := flat1; call_heap := heap1 |};
                    {| call_args := flat2; call_heap := heap2 |} ] /\
  fst (_call_routine routine (pre ++ VWorkArray w :: post) st)
    = native_result routine flat2 heap2.
Proof.
  intros Hpre Hpost Apre Apost Hw Hty b heap1 flat1 Hr R1 R2 R3 P c heap2 flat2.
  set (pre' := pure_passes pre) in *. set (post' := pure_passes post) in *.
  assert (Hlt : (w < length (works st))%nat) by (eapply lookup_lt_Some; eauto).
  assert (Hpre' : existsb is_WorkArray pre' = false)
    by (subst pre'; now rewrite pure_passes_no_work).
  assert (Hpost' : existsb is_WorkArray post' = false)
    by (subst post'; now rewrite pure_passes_no_work).
  (* the pure passes *)
  assert (Aall : forallb ascii_arg (pre ++ VWorkArray w :: post) = true).
  { rewrite forallb_app, Apre. simpl. exact Apost. }
  assert (Hexp : pure_passes (pre ++ VWorkArray w :: post)
                 = pre' ++ VWorkArray w :: post').
  { rewrite pure_passes_app by (assumption || (simpl; exact Apost)).
    f_equal. apply (pure_passes_app [VWorkArray w] post eq_refl Apost). }
  pose proof (encode_strings_ascii _ Aall) as He. rewrite Hexp in He.
  (* the query phase *)
  set (self1 := {| types := types self; np_types := np_types self;
                   query_arrays := Some [b; S b; S (S b)] |}).
  set (st1 := {| expand_args := expand_args st; arrays := heap1;
                 works := <[w := self1]> (works st); calls := calls st; allocator := allocator st |}).
  assert (Q : to_query w st = (Ok (VList (query_pairs b 3)), st1)).
  { rewrite (to_query_spec _ _ _ Hw). subst st1 self1 heap1 b. now rewrite Hty. }
  assert (E1 : _expand_work (pre' ++ VWorkArray w :: post') true st
               = (Ok (pre' ++ VList (query_pairs b 3) :: post'), st1)).
  { now rewrite (expand_work_single pre' w post' true st _ _ Hpre' Hpost' Q). }
  assert (F1 : flatten (pre' ++ VList (query_pairs b 3) :: post') = flat1).
  { rewrite flatten_app. reflexivity. }
  set (c1 := {| call_args := flat1; call_heap := heap1 |}).
  set (st2 := set_arrays h1 (log_call c1 st1)).
  assert (N1 : call_native routine flat1 st1 = (Ok rv1, st2)).
  { unfold call_native. simpl. now rewrite Hr. }
  (* the compute phase *)
  set (st3 := set_arrays heap2 st2).
  assert (C : to_compute w st2
              = (Ok (VList (work_pairs c [(n1, T1); (n2, T2); (n3, T3)])), st3)).
  { rewrite (to_compute_spec w self1 [b; S b; S (S b)] [n1; n2; n3]).
    - subst st3 heap2 c self1. simpl. now rewrite Hty.
    - simpl. now apply list_lookup_insert_eq.
    - reflexivity.
    - simpl. now rewrite R1, R2, R3.
    - subst self1. simpl. rewrite Hty. exact P. }
  assert (E2 : _expand_work (pre' ++ VWorkArray w :: post') false st2
               = (Ok (pre' ++ VList (work_pairs c [(n1, T1); (n2, T2); (n3, T3)])
                        :: post'), st3)).
  { now rewrite (expand_work_single pre' w post' false st2 _ _ Hpre' Hpost' C). }
  assert (F2 : flatten (pre' ++ VList (work_pairs c [(n1, T1); (n2, T2); (n3, T3)])
                          :: post') = flat2).
  { rewrite flatten_app. reflexivity. }
  (* putting the phases together *)
  assert (Hn : existsb is_WorkArray (pre ++ VWorkArray w :: post) = true).
  { rewrite existsb_app. simpl. apply orb_true_r. }
  assert (Hall : _call_routine routine (pre ++ VWorkArray w :: post) st
                 = call_native routine flat2 st3).
  { unfold _call_routine. rewrite Hn.
    rewrite (bind_ok _ _ st (pre' ++ VWorkArray w :: post') st)
      by (unfold lift; now rewrite He).
    rewrite (bind_ok _ _ st rv1 st2)
      by (rewrite (bind_ok _ _ _ _ _ E1), F1; exact N1).
    rewrite (bind_ok _ _ _ _ _ E2), F2. apply bind_ret_r. }
  split; [exact He |].
  rewrite Hall, call_native_eq. split; [| reflexivity].
  simpl. rewrite <- app_assoc. reflexivity.
Qed.

Lemma call_routine_one_work_array_witness :
  let self := {| types := ["Z"; "D"; "I"]%string;
                 np_types := [complex128; float64; int32];
                 query_arrays := None |} in
  let st := {| expand_args := true; arrays := [zeros 6 float64; zeros 9 int32];
               works := [self]; calls := []; allocator := grant_all |} in
  let args := [VStr [86%N]; VDistributedMatrix {| _local_array := 0; desc := 1 |};
               VWorkArray 0; VInt 7] in
  map call_args (calls (snd (_call_routine wants_four args st)))
  = [ [VBytes ["V"%byte]; VArray 0; VInt 1; VInt 1; VArray 1;
       VArray 2; VInt (-1); VArray 3; VInt (-1); VArray 4; VInt (-1); VInt 7];
      [VBytes ["V"%byte]; VArray 0; VInt 1; VInt 1; VArray 1;
       VArray 5; VInt 4; VArray 6; VInt 4; VArray 7; VInt 4; VInt 7] ].
Proof.
  intros self st args.
  pose proof (call_routine_one_work_array wants_four
                     [VStr [86%N]; VDistributedMatrix {| _local_array := 0; desc := 1 |}]
                     [VInt 7] 0 self complex128 float64 int32 st (VInt 0)
                     (report (SInt 4)
                        [VBytes ["V"%byte]; VArray 0; VInt 1; VInt 1; VArray 1;
                         VArray 2; VInt (-1); VArray 3; VInt (-1); VArray 4;
                         VInt (-1); VInt 7]
                        (arrays st ++ [zeros 1 complex128; zeros 1 float64;
                                       zeros 1 int32]))
                     4 4 4
                     eq_refl eq_refl eq_refl eq_refl eq_refl eq_refl
                     eq_refl eq_refl eq_refl eq_refl eq_refl) as H.
  destruct H as (_ & H & _). exact (eq_trans (f_equal (map call_args) H) eq_refl).
Defined.

(** C1 as stated fails: the list [("é", WorkArray('Z', 'D', 'I'))] holds
    exactly one work array with three type codes, and the invoker makes no
    native call on it. *)
Lemma call_routine_one_work_array_counterexample :
  ~ (forall (routine : native) (pre post : list value) (w : nat)
            (self : WorkArray) (T1 T2 T3 : np_type) (st : state),
       existsb is_WorkArray pre = false ->
       existsb is_WorkArray post = false ->
       works st !! w = Some self ->
       np_types self = [T1; T2; T3] ->
       exists c1 c2,
         calls (snd (_call_routine routine (pre ++ VWorkArray w :: post) st))
         = calls st ++ [c1; c2]).
Proof.
  intros H.
  destruct (H status_zero [VStr [233%N]] [] 0%nat
              {| types := ["Z"; "D"; "I"]%string;
                 np_types := [complex128; float64; int32];
                 query_arrays := None |}
              complex128 float64 int32
              {| expand_args := true; arrays := [];
                 works := [ {| types := ["Z"; "D"; "I"]%string;
                               np_types := [complex128; float64; int32];
                               query_arrays := None |} ];
                 calls := []; allocator := grant_all |}
              eq_refl eq_refl eq_refl eq_refl) as (c1 & c2 & Hc).
  vm_compute in Hc. discriminate.
Qed.

(** The conditions on the query's answers are needed as well: when the
    routine answers -1, [np.zeros] refuses the length and the invoker stops
    after the query call. *)
Example query_answer_negative :
  let st := snd (WorkArray_init ["I"]%string empty_state) in
  fst (_call_routine wants_minus_one [VWorkArray 0] st) = Raise ValueError /\
  length (calls (snd (_call_routine wants_minus_one [VWorkArray 0] st))) = 1%nat.
Proof. split; reflexivity. Qed.

(** So is the condition that [np.zeros] accepts them: an answer of 10^30
    is refused with [ValueError], and an answer of 10^13 for a complex128
    buffer with [MemoryError] when the environment grants at most a
    gigabyte; either way the invoker stops after the query call. *)
Example query_answer_too_large :
  let routine (x : Z) : native :=
    fun flat h => (Some (VInt 0), report (SInt x) flat h) in
  let st := {| expand_args := true; arrays := [];
               works := [ {| types := ["Z"]%string; np_types := [complex128];
                             query_arrays := None |} ];
               calls := []; allocator := grant_upto (2 ^ 30) |} in
  fst (_call_routine (routine (10 ^ 30)) [VWorkArray 0] st) = Raise ValueError /\
  length (calls (snd (_call_routine (routine (10 ^ 30)) [VWorkArray 0] st))) = 1%nat /\
  fst (_call_routine (routine (10 ^ 13)) [VWorkArray 0] st) = Raise MemoryError /\
  length (calls (snd (_call_routine (routine (10 ^ 13)) [VWorkArray 0] st))) = 1%nat.
Proof. repeat split; vm_compute; reflexivity. Qed.

(** The scenario of the package's documentation: [pzheevd('V', 'L', N, dA,
    evals, evecs, WorkArray('Z', 'D', 'I'))] becomes a query call and a
    compute call with the work arrays at the end. *)
Example pzheevd_scenario :
  let prog :=
    let* w := WorkArray_init ["Z"; "D"; "I"]%string in
    wrapper wants_four
      [VStr [86%N]; VStr [76%N]; VInt 100;
       VDistributedMatrix {| _local_array := 0; desc := 1 |}; VArray 2;
       VDistributedMatrix {| _local_array := 3; desc := 4 |}; VWorkArray w] in
  let st := {| expand_args := true;
               arrays := [zeros 4 complex128; zeros 9 int32; zeros 2 float64;
                          zeros 4 complex128; zeros 9 int32];
               works := []; calls := []; allocator := grant_all |} in
  fst (prog st) = Ok (VInt 0) /\
  map call_args (calls (snd (prog st)))
  = [ [VBytes ["V"%byte]; VBytes ["L"%byte]; VInt 100;
       VArray 0; VInt 1; VInt 1; VArray 1; VArray 2;
       VArray 3; VInt 1; VInt 1; VArray 4;
       VArray 5; VInt (-1); VArray 6; VInt (-1); VArray 7; VInt (-1)];
      [VBytes ["V"%byte]; VBytes ["L"%byte]; VInt 100;
       VArray 0; VInt 1; VInt 1; VArray 1; VArray 2;
       VArray 3; VInt 1; VInt 1; VArray 4;
       VArray 8; VInt 4; VArray 9; VInt 4; VArray 10; VInt 4] ].
Proof. split; reflexivity. Qed.

(** * Further properties of the module *)

(** ** The constructor *)

Lemma typemap_valid c : valid_code c = true -> exists t, _typemap c = Ok t.
Proof.
  unfold valid_code, _typemap. simpl.
  destruct (String.eqb c "S"); [eexists; reflexivity |].
  destruct (String.eqb c "C"); [eexists; reflexivity |].
  destruct (String.eqb c "D"); [eexists; reflexivity |].
  destruct (String.eqb c "Z"); [eexists; reflexivity |].
  destruct (String.eqb c "I"); [eexists; reflexivity | discriminate].
Qed.

Lemma typemap_invalid c : valid_code c = false -> _typemap c = Raise KeyError.
Proof.
  unfold valid_code, _typemap. simpl.
  destruct (String.eqb c "S"); [discriminate |].
  destruct (String.eqb c "C"); [discriminate |].
  destruct (String.eqb c "D"); [discriminate |].
  destruct (String.eqb c "Z"); [discriminate |].
  destruct (String.eqb c "I"); [discriminate | reflexivity].
Qed.

Lemma typemap_error c e : _typemap c = Raise e -> e = KeyError.
Proof.
  destruct (valid_code c) eqn:V.
  - destruct (typemap_valid c V) as [t ->]. discriminate.
  - rewrite (typemap_invalid c V). now inversion 1.
Qed.

Lemma typemap_all_valid codes :
  forallb valid_code codes = true -> exists nps, rmap _typemap codes = Ok nps.
Proof.
  induction codes as [| c codes IH]; simpl; intros H.
  - now exists [].
  - apply andb_true_iff in H as [Hc Hr].
    destruct (typemap_valid c Hc) as [t ->]. destruct (IH Hr) as [nps ->].
    simpl. eexists; reflexivity.
Qed.

Lemma typemap_some_invalid codes :
  forallb valid_code codes = false -> rmap _typemap codes = Raise KeyError.
Proof.
  intros H. destruct (rmap _typemap codes) as [nps | e] eqn:E.
  - exfalso. assert (G : forallb valid_code codes = true); [| congruence].
    apply forallb_forall. intros c Hc. apply list_elem_of_In in Hc.
    apply list_elem_of_lookup in Hc as [i Hi].
    destruct (rmap_lookup _ _ _ _ _ E Hi) as (t & Ht & _).
    destruct (valid_code c) eqn:V; [reflexivity |].
    rewrite (typemap_invalid c V) in Ht. discriminate.
  - destruct (rmap_error _ _ _ E) as (c & _ & Hc).
    now rewrite (typemap_error _ _ Hc).
Qed.

(** X1: when every type code is one of S, C, D, Z, I the constructor
    succeeds: it returns a reference no instance had before, the new
    instance keeps the codes, has one dtype per code and no query result,
    and every instance that existed is left as it was, as are the arrays
    and the call log. *)
Theorem WorkArray_init_valid (codes : list string) (st : state) :
  forallb valid_code codes = true ->
  exists nps st',
    WorkArray_init codes st = (Ok (length (works st)), st') /\
    works st !! length (works st) = None /\
    works st' !! length (works st)
      = Some {| types := codes; np_types := nps; query_arrays := None |} /\
    rmap _typemap codes = Ok nps /\
    length nps = length codes /\
    (forall (w : nat) self, works st !! w = Some self -> works st' !! w = Some self) /\
    arrays st' = arrays st /\ calls st' = calls st.
Proof.
  intros H. destruct (typemap_all_valid codes H) as [nps Hn].
  exists nps. eexists. unfold WorkArray_init, bind, lift. rewrite Hn.
  split; [reflexivity |]. split; [now apply lookup_ge_None |].
  split; [simpl; now apply list_lookup_middle |].
  split; [reflexivity |]. split; [eapply rmap_length; eauto |].
  split; [| split; reflexivity].
  intros w self Hw. simpl. now apply lookup_app_l_Some.
Qed.

Lemma WorkArray_init_valid_witness :
  exists nps st',
    WorkArray_init ["Z"; "D"; "I"]%string empty_state = (Ok 0%nat, st') /\
    works st' !! 0%nat
      = Some {| types := ["Z"; "D"; "I"]%string; np_types := nps;
                query_arrays := None |} /\
    length nps = 3%nat.
Proof.
  destruct (WorkArray_init_valid ["Z"; "D"; "I"]%string empty_state eq_refl)
    as (nps & st' & H1 & _ & H3 & _ & H5 & _).
  exists nps, st'. repeat split; assumption.
Defined.

(** X2: a type code outside S, C, D, Z, I makes the constructor raise
    [KeyError]; no instance is created and the store is unchanged. *)
Theorem WorkArray_init_unknown_code (codes : list string) (st : state) :
  forallb valid_code codes = false ->
  WorkArray_init codes st = (Raise KeyError, st).
Proof.
  intros H. unfold WorkArray_init, bind, lift.
  now rewrite (typemap_some_invalid codes H).
Qed.

Lemma WorkArray_init_unknown_code_witness :
  WorkArray_init ["Z"; "X"]%string empty_state = (Raise KeyError, empty_state).
Proof. apply WorkArray_init_unknown_code. reflexivity. Defined.

(** ** The pure passes, together *)

Lemma fix_string_not_ascii arg :
  ascii_arg arg = false -> _fix_string arg = Raise UnicodeEncodeError.
Proof.
  destruct arg; simpl; try discriminate. intros H.
  destruct (encode_ascii s) as [b | e] eqn:E; simpl.
  - exfalso. assert (G : forallb (fun c => (c <? 128)%N) s = true); [| congruence].
    apply forallb_forall. intros c Hc. apply list_elem_of_In in Hc.
    destruct (N.ltb_spec c 128) as [Hlt | Hge]; [reflexivity |].
    assert (Hex : Exists (fun c => (128 <= c)%N) s).
    { apply Exists_exists. exists c. split; [assumption | exact Hge]. }
    rewrite (encode_ascii_raises _ Hex) in E. discriminate.
  - now rewrite (encode_ascii_error _ _ E).
Qed.

(** X3: [_encode_strings] returns a list, as long as its input, exactly
    when every top-level text argument is ASCII; otherwise it raises
    [UnicodeEncodeError]. *)
Theorem encode_strings_succeeds_iff_ascii (args : list value) :
  (forallb ascii_arg args = true ->
   exists out, _encode_strings args = Ok out /\ length out = length args) /\
  (forallb ascii_arg args = false ->
   _encode_strings args = Raise UnicodeEncodeError).
Proof.
  split.
  - intros H.
    enough (G : exists out, _encode_strings args = Ok out).
    { destruct G as [out Ho]. exists out. split; [assumption |].
      eapply rmap_length; eauto. }
    unfold _encode_strings. induction args as [| a args IH]; simpl.
    + now exists [].
    + simpl in H. apply andb_true_iff in H as [Ha Hr].
      destruct (fix_string_ascii a Ha) as [v ->]. destruct (IH Hr) as [out ->].
      simpl. eexists; reflexivity.
  - intros H. destruct (_encode_strings args) as [out | e] eqn:E.
    + exfalso. assert (G : forallb ascii_arg args = true); [| congruence].
      apply forallb_forall. intros a Ha. apply list_elem_of_In in Ha.
      apply list_elem_of_lookup in Ha as [i Hi].
      destruct (rmap_lookup _ _ _ _ _ E Hi) as (y & Hy & _).
      destruct (ascii_arg a) eqn:A; [reflexivity |].
      rewrite (fix_string_not_ascii a A) in Hy. discriminate.
    + now rewrite (encode_strings_error _ _ E).
Qed.

Lemma encode_strings_succeeds_iff_ascii_witness :
  (exists out, _encode_strings [VStr [76%N]; VInt 2] = Ok out /\ length out = 2%nat) /\
  _encode_strings [VInt 2; VStr [8364%N]] = Raise UnicodeEncodeError.
Proof.
  split.
  - apply (proj1 (encode_strings_succeeds_iff_ascii [VStr [76%N]; VInt 2])).
    reflexivity.
  - apply (proj2 (encode_strings_succeeds_iff_ascii [VInt 2; VStr [8364%N]])).
    reflexivity.
Defined.

(** X4: [_expand_dm] is idempotent: its result holds no distributed
    matrix at top level, so a second run changes nothing. *)
Theorem expand_dm_idempotent (args : list value) :
  _expand_dm (_expand_dm args) = _expand_dm args /\
  existsb is_DistributedMatrix (_expand_dm args) = false.
Proof.
  unfold _expand_dm. induction args as [| a args [IH1 IH2]]; [split; reflexivity |].
  cbn [map existsb]. rewrite IH1, IH2. split; now destruct a.
Qed.

(** X5: the two pure passes commute: encoding the strings of the expanded
    list gives what expanding the encoded list gives, and fails exactly
    when encoding the original list fails. *)
Theorem expand_dm_encode_strings_commute (args : list value) :
  _encode_strings (_expand_dm args)
  = rbind (_encode_strings args) (fun out => Ok (_expand_dm out)).
Proof.
  unfold _encode_strings, _expand_dm.
  induction args as [| a args IH]; [reflexivity |].
  cbn [map rmap]. rewrite IH.
  destruct a; simpl; try (destruct (rmap _fix_string args); reflexivity).
  destruct (encode_ascii s); simpl; [| reflexivity].
  destruct (rmap _fix_string args); reflexivity.
Qed.

Lemma inert_passes args :
  forallb inert args = true ->
  _expand_dm args = args /\ _encode_strings args = Ok args /\
  existsb is_WorkArray args = false.
Proof.
  unfold _expand_dm, _encode_strings.
  induction args as [| a args IH]; simpl; intros H; [repeat split |].
  apply andb_true_iff in H as [Ha Hr]. destruct (IH Hr) as (I1 & I2 & I3).
  rewrite I1, I2, I3.
  destruct a; simpl in Ha; try discriminate; repeat split.
Qed.

(** X6: on arguments none of which is, at top level, text, a distributed
    matrix or a work array, the invoker does what a direct call does: one
    native call on the flattened list, with that call's outcome.  This
    includes list arguments, whose contents are not looked into: text,
    distributed matrices and work arrays nested in them reach the routine
    as they are. *)
Theorem call_routine_inert_arguments (routine : native) (args : list value) (st : state) :
  forallb inert args = true ->
  _call_routine routine args st = call_native routine (flatten args) st.
Proof.
  intros H. destruct (inert_passes args H) as (H1 & H2 & H3).
  unfold _call_routine. rewrite H1, H3.
  rewrite (bind_ok _ _ st args st) by (unfold lift; now rewrite H2).
  rewrite (bind_ok _ _ st VNone st) by reflexivity.
  rewrite (bind_ok _ _ _ _ _ (expand_work_no_work args false st H3)).
  apply bind_ret_r.
Qed.

Lemma call_routine_inert_arguments_witness :
  map call_args
    (calls (snd (_call_routine status_zero
                   [VInt 3; VList [VStr [233%N]; VWorkArray 5;
                                   VDistributedMatrix {| _local_array := 0; desc := 1 |}]]
                   empty_state)))
  = [ [VInt 3; VStr [233%N]; VWorkArray 5;
       VDistributedMatrix {| _local_array := 0; desc := 1 |}] ].
Proof.
  rewrite (call_routine_inert_arguments status_zero
             [VInt 3; VList [VStr [233%N]; VWorkArray 5;
                             VDistributedMatrix {| _local_array := 0; desc := 1 |}]]
             empty_state eq_refl).
  reflexivity.
Defined.

(** ** More on [to_query] and [to_compute] *)

(** X7: on an existing instance [to_query] always succeeds.  It only adds
    arrays, one per dtype, after the ones that exist; it sets this
    instance's [query_arrays] to the new references and keeps its [types]
    and [np_types]; every other instance, the call log and the expansion
    switch are as before. *)
Theorem to_query_frame (w : nat) (self : WorkArray) (st : state) :
  works st !! w = Some self ->
  exists v st' qa,
    to_query w st = (Ok v, st') /\
    (forall (r : nat) a, arrays st !! r = Some a -> arrays st' !! r = Some a) /\
    length (arrays st') = (length (arrays st) + length (np_types self))%nat /\
    works st' !! w = Some {| types := types self; np_types := np_types self;
                             query_arrays := Some qa |} /\
    length qa = length (np_types self) /\
    Forall (fun r : nat => arrays st !! r = None /\ is_Some (arrays st' !! r)) qa /\
    (forall w' : nat, w' <> w -> works st' !! w' = works st !! w') /\
    length (works st') = length (works st) /\
    calls st' = calls st /\ expand_args st' = expand_args st.
Proof.
  intros Hw. rewrite (to_query_spec _ _ _ Hw).
  assert (Hlt : (w < length (works st))%nat) by (eapply lookup_lt_Some; eauto).
  eexists _, _, _. split; [reflexivity |]. simpl.
  split; [intros r a Hr; now apply lookup_app_l_Some |].
  split; [now rewrite length_app, length_map |].
  split; [now apply list_lookup_insert_eq |].
  split; [apply length_seq |].
  split.
  - apply Forall_forall. intros r Hr. apply elem_of_seq in Hr as [H1 H2]. split.
    + now apply lookup_ge_None.
    + apply lookup_lt_is_Some. rewrite length_app, length_map. lia.
  - split; [intros w' Hne; now apply list_lookup_insert_ne |].
    split; [apply length_insert |]. split; reflexivity.
Qed.

Lemma to_query_frame_witness :
  let st := {| expand_args := true; arrays := [zeros 3 int32];
               works := [ {| types := ["D"]%string; np_types := [float64];
                             query_arrays := None |};
                          {| types := ["I"]%string; np_types := [int32];
                             query_arrays := Some [0%nat] |} ];
               calls := []; allocator := grant_all |} in
  exists v st', to_query 0 st = (Ok v, st') /\ works st' !! 1%nat = works st !! 1%nat.
Proof.
  intros st.
  destruct (to_query_frame 0 _ st eq_refl)
    as (v & st' & qa & H1 & _ & _ & _ & _ & _ & H7 & _).
  exists v, st'. split; [exact H1 |]. apply H7. discriminate.
Defined.

Lemma read_len_app h h' r n : read_len h r = Ok n -> read_len (h ++ h') r = Ok n.
Proof.
  unfold read_len. destruct (h !! r) as [a |] eqn:E; [| discriminate].
  now rewrite (lookup_app_l_Some _ _ _ _ E).
Qed.

Lemma rmap_read_len_app h h' qa wlens :
  rmap (read_len h) qa = Ok wlens -> rmap (read_len (h ++ h')) qa = Ok wlens.
Proof.
  revert wlens. induction qa as [| r qa IH]; intros wlens H; simpl in *; [assumption |].
  destruct (read_len h r) as [n |] eqn:E; simpl in H; [| discriminate].
  rewrite (read_len_app _ h' _ _ E). simpl.
  destruct (rmap (read_len h) qa) as [ns |]; simpl in H; [| discriminate].
  now rewrite (IH ns eq_refl).
Qed.

(** X8: [to_compute] does not store what it builds and does not touch the
    instance.  When every query buffer holds a length that [np.zeros]
    accepts, it returns one [[buffer, length]] pair per dtype with new
    buffers; and when the buffers can be allocated once more, a second
    [to_compute] returns the same lengths again with another set of new
    buffers. *)
Theorem to_compute_repeatable
    (w : nat) (self : WorkArray) (qa : list nat) (wlens : list Z) (st : state) :
  works st !! w = Some self ->
  query_arrays self = Some qa ->
  rmap (read_len (arrays st)) qa = Ok wlens ->
  let ps := combine wlens (np_types self) in
  let bufs := map (fun p : Z * np_type => zeros (fst p) (snd p)) ps in
  all_zeros_ok (allocator st) (arrays st) ps = true ->
  all_zeros_ok (allocator st) (arrays st ++ bufs) ps = true ->
  let n := length (arrays st) in
  let st1 := snd (to_compute w st) in
  to_compute w st
    = (Ok (VList (work_pairs n ps)), set_arrays (arrays st ++ bufs) st) /\
  works st1 = works st /\
  to_compute w st1
    = (Ok (VList (work_pairs (n + length ps) ps)),
       set_arrays (arrays st1 ++ bufs) st1).
Proof.
  intros Hw Hq Hl ps bufs Hp1 Hp2 n st1. subst ps bufs n st1.
  rewrite (to_compute_spec _ _ _ _ _ Hw Hq Hl Hp1). simpl.
  split; [reflexivity |]. split; [reflexivity |].
  rewrite (to_compute_spec w self qa wlens); simpl; try assumption.
  - now rewrite length_app, length_map.
  - now apply rmap_read_len_app.
Qed.

Lemma to_compute_repeatable_witness :
  let st := {| expand_args := true;
               arrays := [ {| dtype := float64;
                              data := [SFloat (S754_finite false 5 (-1))] |} ];
               works := [ {| types := ["D"]%string; np_types := [float64];
                             query_arrays := Some [0%nat] |} ];
               calls := []; allocator := grant_upto 64 |} in
  fst (to_compute 0 st) = Ok (VList [VList [VArray 1; VInt 2]]) /\
  fst (to_compute 0 (snd (to_compute 0 st))) = Ok (VList [VList [VArray 2; VInt 2]]).
Proof.
  intros st.
  destruct (to_compute_repeatable 0 _ [0%nat] [2] st
              eq_refl eq_refl eq_refl eq_refl eq_refl)
    as (H1 & _ & H3).
  split; [now rewrite H1 | now rewrite H3].
Defined.

Lemma alloc_work_arrays_stop ps1 (p : Z * np_type) ps2 st e :
  all_zeros_ok (allocator st) (arrays st) ps1 = true ->
  np_zeros (fst p) (snd p)
    (set_arrays (arrays st ++ map (fun p => zeros (fst p) (snd p)) ps1) st)
  = (Raise e,
     set_arrays (arrays st ++ map (fun p => zeros (fst p) (snd p)) ps1) st) ->
  mapM (fun p : Z * np_type =>
          let* buf := np_zeros (fst p) (snd p) in
          ret (VList [VArray buf; VInt (fst p)])) (ps1 ++ p :: ps2) st
  = (Raise e,
     set_arrays (arrays st ++ map (fun p => zeros (fst p) (snd p)) ps1) st).
Proof.
  intros H1 Hp. rewrite mapM_app.
  rewrite (bind_ok _ _ _ _ _ (alloc_work_arrays _ _ H1)).
  apply bind_raise. cbn [mapM]. apply bind_raise, bind_raise. exact Hp.
Qed.

Lemma np_zeros_value_error n t st :
  n < 0 \/ max_intp < n * itemsize t -> np_zeros n t st = (Raise ValueError, st).
Proof.
  intros H. unfold np_zeros.
  destruct (Z.ltb_spec n 0) as [Hn | Hn]; [reflexivity |].
  destruct (Z.ltb_spec max_intp (n * itemsize t)) as [Hb | Hb]; [reflexivity | lia].
Qed.

Lemma np_zeros_memory_error n t st :
  1 < n -> n * itemsize t <= max_intp -> allocator st (arrays st) n t = false ->
  np_zeros n t st = (Raise MemoryError, st).
Proof.
  intros Hn Hb Ha. unfold np_zeros.
  destruct (Z.ltb_spec n 0) as [Hn' | Hn']; [lia |].
  destruct (Z.ltb_spec max_intp (n * itemsize t)) as [Hb' | Hb']; [lia |].
  replace (1 <? n) with true by (symmetry; apply Z.ltb_lt; lia).
  now rewrite Ha.
Qed.

(** X9: [to_compute] allocates the work buffers in order and stops at the
    first length that [np.zeros] refuses, the buffers before it having been
    allocated.  It raises [ValueError] when that length is negative or its
    byte size exceeds [max_intp], and [MemoryError] when the length is in
    range and the memory for it is not there.  The instances and the call
    log are unchanged. *)
Theorem to_compute_refused_length
    (w : nat) (self : WorkArray) (qa : list nat) (wlens : list Z) (st : state)
    (ps1 ps2 : list (Z * np_type)) (n : Z) (t : np_type) :
  works st !! w = Some self ->
  query_arrays self = Some qa ->
  rmap (read_len (arrays st)) qa = Ok wlens ->
  combine wlens (np_types self) = ps1 ++ (n, t) :: ps2 ->
  all_zeros_ok (allocator st) (arrays st) ps1 = true ->
  let st1 := set_arrays (arrays st ++ map (fun p => zeros (fst p) (snd p)) ps1) st in
  works st1 = works st /\ calls st1 = calls st /\
  (n < 0 \/ max_intp < n * itemsize t ->
   to_compute w st = (Raise ValueError, st1)) /\
  (1 < n -> n * itemsize t <= max_intp -> allocator st (arrays st1) n t = false ->
   to_compute w st = (Raise MemoryError, st1)).
Proof.
  intros Hw Hq Hl Hc H1 st1.
  assert (G : forall e, np_zeros n t st1 = (Raise e, st1) ->
                        to_compute w st = (Raise e, st1)).
  { intros e He. unfold to_compute.
    rewrite (bind_ok _ _ st self st) by (unfold get_work; now rewrite Hw).
    rewrite Hq.
    rewrite (bind_ok _ _ st wlens st) by (now rewrite read_lens, Hl).
    apply bind_raise. rewrite Hc.
    exact (alloc_work_arrays_stop ps1 (n, t) ps2 st e H1 He). }
  split; [reflexivity |]. split; [reflexivity |]. split.
  - intros Hn. apply G. now apply np_zeros_value_error.
  - intros Hn Hb Ha. apply G. now apply np_zeros_memory_error.
Qed.

Lemma to_compute_refused_length_witness :
  let st := {| expand_args := true;
               arrays := [ {| dtype := complex128;
                              data := [SComplex (S754_finite false 1 40)
                                                (S754_zero false)] |};
                           {| dtype := int32; data := [SInt (-2)] |} ];
               works := [ {| types := ["I"; "Z"; "I"]%string;
                             np_types := [int32; complex128; int32];
                             query_arrays := Some [1%nat; 0%nat; 1%nat] |} ];
               calls := []; allocator := grant_upto 1024 |} in
  fst (to_compute 0 st) = Raise ValueError /\
  fst (to_compute 0 (set_works
                       [ {| types := ["Z"; "I"]%string;
                            np_types := [complex128; int32];
                            query_arrays := Some [0%nat; 1%nat] |} ] st))
  = Raise MemoryError.
Proof.
  intros st. split.
  - destruct (to_compute_refused_length 0 _ [1%nat; 0%nat; 1%nat] [-2; 2 ^ 40; -2] st
                [] [(2 ^ 40, complex128); (-2, int32)] (-2) int32
                eq_refl eq_refl eq_refl eq_refl eq_refl) as (_ & _ & H & _).
    rewrite H; [reflexivity | left; lia].
  - destruct (to_compute_refused_length 0 _ [0%nat; 1%nat] [2 ^ 40; -2]
                (set_works
                   [ {| types := ["Z"; "I"]%string;
                        np_types := [complex128; int32];
                        query_arrays := Some [0%nat; 1%nat] |} ] st)
                [] [(-2, int32)] (2 ^ 40) complex128
                eq_refl eq_refl eq_refl eq_refl eq_refl) as (_ & _ & _ & H).
    rewrite H; [reflexivity | reflexivity | vm_compute; discriminate | reflexivity].
Defined.

Lemma read_len_error_kind h r e :
  read_len h r = Raise e ->
  (e = DanglingReference /\ h !! r = None) \/
  (exists a, h !! r = Some a /\
     ((e = IndexError /\ data a = []) \/
      (exists x tl, data a = x :: tl /\
         ((e = ValueError /\ np_real x = SFloat S754_nan) \/
          (e = OverflowError /\ exists s, np_real x = SFloat (S754_infinity s)))))).
Proof.
  unfold read_len. destruct (h !! r) as [a |]; [| inversion 1; now left].
  intros H. right. exists a. split; [reflexivity |].
  destruct (data a) as [| x tl]; [inversion H; now left |].
  right. exists x, tl. split; [reflexivity |].
  destruct x as [z | f | re im]; simpl in *.
  - discriminate.
  - destruct f; inversion H; subst; [right; eauto | left; auto].
  - destruct re; inversion H; subst; [right; eauto | left; auto].
Qed.

(** X10: when a query buffer cannot be read as a length, [to_compute]
    raises at the first such buffer and changes nothing: [IndexError] for
    an empty buffer, [ValueError] when the real part of its first element
    is NaN, [OverflowError] when it is infinite.  (A reference to no array
    is the only other case, and Python has none.) *)
Theorem to_compute_unreadable_length
    (w : nat) (self : WorkArray) (qa : list nat) (e : exn) (st : state) :
  works st !! w = Some self ->
  query_arrays self = Some qa ->
  rmap (read_len (arrays st)) qa = Raise e ->
  to_compute w st = (Raise e, st) /\
  exists r, In r qa /\
    ((e = DanglingReference /\ arrays st !! r = None) \/
     (exists a, arrays st !! r = Some a /\
        ((e = IndexError /\ data a = []) \/
         (exists x tl, data a = x :: tl /\
            ((e = ValueError /\ np_real x = SFloat S754_nan) \/
             (e = OverflowError /\ exists s, np_real x = SFloat (S754_infinity s))))))).
Proof.
  intros Hw Hq Hl. split.
  - unfold to_compute.
    rewrite (bind_ok _ _ st self st) by (unfold get_work; now rewrite Hw).
    rewrite Hq. apply bind_raise. now rewrite read_lens, Hl.
  - destruct (rmap_error _ _ _ Hl) as (r & Hin & Hr).
    exists r. split; [assumption |]. now apply read_len_error_kind.
Qed.

Lemma to_compute_unreadable_length_witness :
  let st := {| expand_args := true;
               arrays := [ {| dtype := complex128;
                              data := [SComplex S754_nan (S754_zero false)] |} ];
               works := [ {| types := ["Z"]%string; np_types := [complex128];
                             query_arrays := Some [0%nat] |} ];
               calls := []; allocator := grant_all |} in
  to_compute 0 st = (Raise ValueError, st).
Proof.
  intros st.
  apply (proj1 (to_compute_unreadable_length 0 _ [0%nat] ValueError st
                  eq_refl eq_refl eq_refl)).
Defined.

(** ** Invariants of the store *)

Lemma mapM_invariant {A B} (P : state -> Prop) (f : A -> M B) (l : list A) :
  (forall x st r st', f x st = (r, st') -> P st -> P st') ->
  forall st r st', mapM f l st = (r, st') -> P st -> P st'.
Proof.
  intros Hf. induction l as [| x l IH]; intros st r st' H HP; simpl in H.
  - now inversion H; subst.
  - bind_head H.
    + bind_head H; inversion H; subst; eapply IH; eauto.
    + inversion H; subst. eauto.
Qed.

Lemma to_query_wf w st r st' :
  to_query w st = (r, st') -> wf_state st -> wf_state st'.
Proof.
  intros H Hwf. destruct (works st !! w) as [self |] eqn:Hw.
  - rewrite (to_query_spec _ _ _ Hw) in H. inversion H; subst; clear H.
    assert (Hlt : (w < length (works st))%nat) by (eapply lookup_lt_Some; eauto).
    intros w' self' Hw'. simpl in Hw'.
    destruct (Nat.eq_dec w w') as [-> | Hne].
    + rewrite list_lookup_insert_eq in Hw' by assumption.
      inversion Hw'; subst. destruct (Hwf _ _ Hw) as [H1 _].
      split; simpl; [assumption |]. intros qa Hqa. inversion Hqa; subst.
      apply length_seq.
    + rewrite list_lookup_insert_ne in Hw' by assumption. eauto.
  - unfold to_query, bind at 1, get_work in H. rewrite Hw in H.
    now inversion H; subst.
Qed.

Lemma wf_state_works st st' : works st' = works st -> wf_state st -> wf_state st'.
Proof. unfold wf_state. intros ->. auto. Qed.

Lemma expand_work_wf args query st r st' :
  _expand_work args query st = (r, st') -> wf_state st -> wf_state st'.
Proof.
  unfold _expand_work. apply mapM_invariant.
  intros x st0 r0 st0' H HP.
  destruct x; try (inversion H; subst; assumption).
  destruct query.
  - eapply to_query_wf; eauto.
  - destruct (to_compute_outcome _ _ _ _ H) as (Hw & _).
    eapply wf_state_works; eauto.
Qed.

Lemma call_native_wf routine flat st r st' :
  call_native routine flat st = (r, st') -> wf_state st -> wf_state st'.
Proof.
  intros H. destruct (call_native_outcome _ _ _ _ _ H) as [Hw _].
  now apply wf_state_works.
Qed.

Lemma call_routine_wf routine args st r st' :
  _call_routine routine args st = (r, st') -> wf_state st -> wf_state st'.
Proof.
  unfold _call_routine. intros H Hwf.
  unfold bind at 1, lift in H.
  destruct (_encode_strings (_expand_dm args)) as [exp | e0];
    [| now inversion H; subst].
  assert (Hq : forall r1 st1,
             (if existsb is_WorkArray args
              then let* wq_args := _expand_work exp true in
                   call_native routine (flatten wq_args)
              else ret VNone) st = (r1, st1) -> wf_state st1).
  { intros r1 st1 H1. destruct (existsb is_WorkArray args).
    - bind_head H1.
      + eapply call_native_wf; eauto. eapply expand_work_wf; eauto.
      + inversion H1; subst. eapply expand_work_wf; eauto.
    - now inversion H1; subst. }
  bind_head H.
  - specialize (Hq _ _ eq_refl). bind_head H.
    + bind_head H; inversion H; subst;
        eapply call_native_wf; eauto; eapply expand_work_wf; eauto.
    + inversion H; subst. eapply expand_work_wf; eauto.
  - inversion H; subst. apply (Hq _ _ eq_refl).
Qed.

(** X11: every instance keeps the shape its constructor gave it.  If, in
    every instance, [np_types] is [types] looked up in [_typemap] and
    [query_arrays], when set, has one array per type code, then the same
    holds after the constructor, after [to_query], after [_call_routine]
    and after the wrapper, for every routine and argument list, whether
    they return or raise. *)
Theorem work_arrays_stay_well_formed :
  (forall codes st, wf_state st -> wf_state (snd (WorkArray_init codes st))) /\
  (forall w st, wf_state st -> wf_state (snd (to_query w st))) /\
  (forall routine args st,
     wf_state st -> wf_state (snd (_call_routine routine args st))) /\
  (forall robj args st, wf_state st -> wf_state (snd (wrapper robj args st))).
Proof.
  split; [| split; [| split]].
  - intros codes st Hwf. unfold WorkArray_init, bind, lift.
    destruct (rmap _typemap codes) as [nps | e] eqn:E; [| exact Hwf].
    simpl. intros w self Hw.
    apply lookup_app_Some in Hw as [Hw | [_ Hw]]; [eauto |].
    destruct (w - length (works st))%nat; [| discriminate].
    inversion Hw; subst. split; simpl; [assumption | discriminate].
  - intros w st Hwf. destruct (to_query w st) as [r st'] eqn:E.
    eapply to_query_wf; eauto.
  - intros routine args st Hwf.
    destruct (_call_routine routine args st) as [r st'] eqn:E.
    eapply call_routine_wf; eauto.
  - intros robj args st Hwf. unfold wrapper. destruct (expand_args st).
    + destruct (_call_routine robj args st) as [r st'] eqn:E.
      eapply call_routine_wf; eauto.
    + destruct ((let* _ := call_native robj (flatten args) in ret VNone) st)
        as [r st'] eqn:E. simpl. bind_head E.
      * inversion E; subst. eapply call_native_wf; eauto.
      * inversion E; subst. eapply call_native_wf; eauto.
Qed.

Lemma work_arrays_stay_well_formed_witness :
  wf_state (snd (_call_routine wants_four [VWorkArray 0]
                   (snd (WorkArray_init ["D"]%string empty_state)))).
Proof.
  destruct work_arrays_stay_well_formed as (H1 & _ & H3 & _).
  apply H3, H1. intros w self Hw. destruct w; discriminate.
Defined.

(** ** How many native calls, and whose result *)

Lemma call_native_log routine flat st r st' :
  call_native routine flat st = (r, st') ->
  calls st' = calls st ++ [ {| call_args := flat; call_heap := arrays st |} ] /\
  r = native_result routine flat (arrays st).
Proof. rewrite call_native_eq. intros H; inversion H; subst. now split. Qed.

Lemma expand_work_calls args query st r st' :
  _expand_work args query st = (r, st') -> calls st' = calls st.
Proof.
  destruct query; intros H.
  - now destruct (expand_work_query_outcome _ _ _ _ H).
  - now destruct (expand_work_compute_outcome _ _ _ _ H) as (_ & ? & _).
Qed.

Lemma native_result_ok routine flat h rv :
  native_result routine flat h = Ok rv -> fst (routine flat h) = Some rv.
Proof. unfold native_result. destruct (fst (routine flat h)); now inversion 1. Qed.

(** X12: whatever the arguments and the routine, [_call_routine] only
    appends to the call log, and at most two calls; without a work array at
    most one.  When it returns a value it has made exactly two calls if the
    list holds a work array and exactly one otherwise, and the value is the
    one the routine returned on the last of them (the value of the query
    call is dropped). *)
Theorem call_routine_call_count
    (routine : native) (args : list value) (st st' : state) (r : result value) :
  _call_routine routine args st = (r, st') ->
  exists cs,
    calls st' = calls st ++ cs /\
    (length cs <= 2)%nat /\
    (existsb is_WorkArray args = false -> (length cs <= 1)%nat) /\
    (forall rv, r = Ok rv ->
       length cs = (if existsb is_WorkArray args then 2 else 1)%nat /\
       exists c, last cs = Some c /\
                 fst (routine (call_args c) (call_heap c)) = Some rv).
Proof.
  unfold _call_routine. intros H.
  unfold bind at 1, lift in H.
  destruct (_encode_strings (_expand_dm args)) as [exp | e0].
  2: { inversion H; subst. exists []. rewrite app_nil_r.
       split; [reflexivity |]. split; [simpl; lia |].
       split; [simpl; lia | discriminate]. }
  assert (Hfin : forall st1 r st',
             (let* wc_args := _expand_work exp false in
              let* rv := call_native routine (flatten wc_args) in ret rv) st1
             = (r, st') ->
             (calls st' = calls st1 /\ forall rv, r <> Ok rv) \/
             (exists c, calls st' = calls st1 ++ [c] /\
                        forall rv, r = Ok rv ->
                                   fst (routine (call_args c) (call_heap c)) = Some rv)).
  { intros st1 r0 st0' H0. bind_head H0.
    - pose proof (expand_work_calls _ _ _ _ _ E) as Hc.
      rewrite bind_ret_r in H0. destruct (call_native_log _ _ _ _ _ H0) as [Hl Hr].
      right. eexists. split; [now rewrite Hl, Hc |].
      intros rv ->. symmetry in Hr. now apply native_result_ok in Hr.
    - inversion H0; subst. left. split; [| discriminate].
      eapply expand_work_calls; eauto. }
  destruct (existsb is_WorkArray args).
  - bind_head H.
    + bind_head E; [| discriminate].
      pose proof (expand_work_calls _ _ _ _ _ E0) as Hc0.
      destruct (call_native_log _ _ _ _ _ E) as [Hl _].
      destruct (Hfin _ _ _ H) as [[Hc Hn] | (c & Hc & Hrv)].
      * eexists [_]. split; [now rewrite Hc, Hl, Hc0 |].
        split; [simpl; lia |]. split; [discriminate |].
        intros rv ->. now destruct (Hn rv).
      * eexists [_; c]. split; [rewrite Hc, Hl, Hc0; now rewrite <- app_assoc |].
        split; [simpl; lia |]. split; [discriminate |].
        intros rv Hr. split; [reflexivity |]. exists c. split; [reflexivity | auto].
    + inversion H; subst. bind_head E.
      * pose proof (expand_work_calls _ _ _ _ _ E0) as Hc0.
        destruct (call_native_log _ _ _ _ _ E) as [Hl _].
        eexists [_]. split; [now rewrite Hl, Hc0 |].
        split; [simpl; lia |]. split; discriminate.
      * inversion E; subst. exists []. rewrite app_nil_r.
        split; [eapply expand_work_calls; eauto |].
        split; [simpl; lia |]. split; discriminate.
  - rewrite (bind_ok _ _ st VNone st) in H by reflexivity.
    destruct (Hfin _ _ _ H) as [[Hc Hn] | (c & Hc & Hrv)].
    + exists []. rewrite app_nil_r. split; [assumption |].
      split; [simpl; lia |]. split; [simpl; lia |].
      intros rv ->. now destruct (Hn rv).
    + exists [c]. split; [assumption |].
      split; [simpl; lia |]. split; [simpl; lia |].
      intros rv Hr. split; [reflexivity |]. exists c. split; [reflexivity | auto].
Qed.

Lemma call_routine_call_count_witness :
  let st := snd (WorkArray_init ["D"; "I"]%string empty_state) in
  exists cs,
    calls (snd (_call_routine wants_four [VInt 1; VWorkArray 0] st)) = calls st ++ cs /\
    length cs = 2%nat.
Proof.
  intros st.
  destruct (call_routine_call_count wants_four [VInt 1; VWorkArray 0] st
              (snd (_call_routine wants_four [VInt 1; VWorkArray 0] st))
              (Ok (VInt 0)) eq_refl) as (cs & H1 & _ & _ & H4).
  exists cs. split; [exact H1 |]. now destruct (H4 (VInt 0) eq_refl).
Defined.

(** ** Which exceptions the invoker can raise, and when *)

Lemma mapM_error {A B} (f : A -> M B) (l : list A) st e st' :
  mapM f l st = (Raise e, st') ->
  exists x st1 st2, In x l /\ f x st1 = (Raise e, st2).
Proof.
  revert st. induction l as [| x l IH]; intros st H; simpl in H; [discriminate |].
  bind_head H.
  - bind_head H; [discriminate |]. inversion H; subst.
    destruct (IH _ E0) as (x' & s1 & s2 & Hin & Hx). exists x', s1, s2.
    split; [now right | exact Hx].
  - inversion H; subst. exists x, st, st'. split; [now left | exact E].
Qed.

Lemma to_query_error w st e st' :
  to_query w st = (Raise e, st') -> e = DanglingReference.
Proof.
  intros H. destruct (works st !! w) as [self |] eqn:Hw.
  - rewrite (to_query_spec _ _ _ Hw) in H. discriminate.
  - unfold to_query, bind at 1, get_work in H. rewrite Hw in H. now inversion H.
Qed.

Lemma to_compute_error w st e st' :
  to_compute w st = (Raise e, st') ->
  e = WorkQueryNotPerformed \/ data_error e = true.
Proof.
  unfold to_compute, bind at 1, get_work. intros H.
  destruct (works st !! w) as [self |]; [| inversion H; now right].
  destruct (query_arrays self) as [qa |]; [| inversion H; now left].
  right. rewrite (bind_eq _ _ _ _ _ (read_lens qa st)) in H.
  destruct (rmap (read_len (arrays st)) qa) as [wlens | e0] eqn:Hl.
  - bind_head H; [discriminate |]. inversion H; subst.
    destruct (mapM_error _ _ _ _ _ E) as (p & s1 & s2 & _ & Hp).
    destruct (alloc_one_outcome _ _ _ _ Hp) as (_ & _ & He & _).
    destruct (He e eq_refl) as [-> | ->]; reflexivity.
  - inversion H; subst. destruct (rmap_error _ _ _ Hl) as (r & _ & Hr).
    destruct (read_len_error_kind _ _ _ Hr)
      as [[-> _] | (a & _ & [[-> _] | (x & tl & _ & [[-> _] | [-> _]])])];
      reflexivity.
Qed.

Lemma expand_work_error args query st e st' :
  _expand_work args query st = (Raise e, st') ->
  (query = true -> e = DanglingReference) /\
  (e = WorkQueryNotPerformed \/ data_error e = true).
Proof.
  unfold _expand_work. intros H.
  destruct (mapM_error _ _ _ _ _ H) as (x & s1 & s2 & _ & Hx).
  destruct x; try discriminate. destruct query.
  - rewrite (to_query_error _ _ _ _ Hx). split; [reflexivity | now right].
  - split; [discriminate |]. eapply to_compute_error; eauto.
Qed.

(** X13: the exceptions of [_call_routine].  It raises
    [UnicodeEncodeError] with the store untouched; or the error of the
    native routine, and then the last call in the log is the one that
    failed; or, only when the list holds a work array, an error from
    reading a query buffer or allocating a work buffer ([IndexError],
    [ValueError], [OverflowError]), and then exactly one call, the query,
    has been made.  It never raises "Work query not yet performed.". *)
Theorem call_routine_exceptions
    (routine : native) (args : list value) (st st' : state) (e : exn) :
  _call_routine routine args st = (Raise e, st') ->
  (e = UnicodeEncodeError /\ st' = st) \/
  (e = NativeError /\
   exists c, last (calls st') = Some c /\
             fst (routine (call_args c) (call_heap c)) = None) \/
  (data_error e = true /\ existsb is_WorkArray args = true /\
   (e <> DanglingReference -> exists c, calls st' = calls st ++ [c])).
Proof.
  unfold _call_routine. intros H.
  unfold bind at 1, lift in H.
  destruct (_encode_strings (_expand_dm args)) as [exp | e0] eqn:He.
  2: { inversion H; subst. left. split; [| reflexivity].
       eapply encode_strings_error; eauto. }
  right.
  assert (Hex : existsb is_WorkArray exp = existsb is_WorkArray args).
  { rewrite (encode_strings_is_WorkArray _ _ He). apply expand_dm_is_WorkArray. }
  assert (Hnat : forall flat s1 e1 s2,
             call_native routine flat s1 = (Raise e1, s2) ->
             e1 = NativeError /\
             exists c, last (calls s2) = Some c /\
                       fst (routine (call_args c) (call_heap c)) = None).
  { intros flat s1 e1 s2 Hn. destruct (call_native_log _ _ _ _ _ Hn) as [Hl Hr].
    unfold native_result in Hr.
    destruct (fst (routine flat (arrays s1))) eqn:Ef; inversion Hr; subst.
    split; [reflexivity |]. eexists. rewrite Hl, last_snoc. split; [reflexivity |].
    exact Ef. }
  destruct (existsb is_WorkArray args) eqn:Hn.
  - bind_head H.
    + bind_head E; [| discriminate].
      destruct (expand_work_query_outcome _ _ _ _ E0) as (Hc0 & _ & Hq).
      destruct (Hq a0 eq_refl) as [_ Hq2].
      destruct (call_native_outcome _ _ _ _ _ E) as [Hw _].
      destruct (call_native_log _ _ _ _ _ E) as [Hl _].
      bind_head H.
      * bind_head H; [discriminate |]. inversion H; subst.
        left. eapply Hnat; eauto.
      * inversion H; subst. right.
        destruct (expand_work_compute_outcome _ _ _ _ E1) as (_ & Hc1 & Hne).
        assert (Hi : internal_error e = false).
        { apply Hne; [| reflexivity]. intros w Hin.
          destruct (Hq2 w Hin) as (self & qa & Hlk & Hqa).
          exists self, qa. split; [congruence | assumption]. }
        destruct (expand_work_error _ _ _ _ _ E1) as [_ [-> | Hd]]; [discriminate |].
        split; [assumption |]. split; [reflexivity |].
        intros _. eexists. now rewrite Hc1, Hl, Hc0.
    + inversion H; subst. bind_head E.
      * left. eapply Hnat; eauto.
      * inversion E; subst. right.
        destruct (expand_work_error _ _ _ _ _ E0) as [Hd _].
        rewrite (Hd eq_refl). split; [reflexivity |]. split; [reflexivity |].
        intros Hne. now destruct Hne.
  - rewrite (bind_ok _ _ st VNone st) in H by reflexivity.
    rewrite (bind_ok _ _ _ _ _ (expand_work_no_work exp false st Hex)) in H.
    bind_head H; [discriminate |]. inversion H; subst.
    left. eapply Hnat; eauto.
Qed.

Lemma call_routine_exceptions_witness :
  let st := snd (WorkArray_init ["I"]%string empty_state) in
  exists c, calls (snd (_call_routine wants_minus_one [VWorkArray 0] st))
            = calls st ++ [c].
Proof.
  intros st.
  destruct (call_routine_exceptions wants_minus_one [VWorkArray 0] st
              (snd (_call_routine wants_minus_one [VWorkArray 0] st))
              ValueError eq_refl)
    as [[H _] | [[H _] | (_ & _ & H)]]; try discriminate.
  apply H. discriminate.
Defined.

(** ** The same work array passed twice *)

Lemma pure_passes_cons_work w l :
  forallb ascii_arg l = true ->
  pure_passes (VWorkArray w :: l) = VWorkArray w :: pure_passes l.
Proof. intros H. apply (pure_passes_app [VWorkArray w] l eq_refl H). Qed.

Lemma expand_work_prefix pre rest (query : bool) st :
  existsb is_WorkArray pre = false ->
  _expand_work (pre ++ rest) query st
  = match _expand_work rest query st with
    | (Ok r, st') => (Ok (pre ++ r), st')
    | (Raise e, st') => (Raise e, st')
    end.
Proof.
  intros Hpre. unfold _expand_work. rewrite mapM_app.
  rewrite (bind_ok _ _ _ _ _ (expand_work_no_work pre query st Hpre)).
  unfold bind, ret. now destruct (mapM _ rest st) as [[r | e] st'].
Qed.

Lemma expand_work_cons_work w rest (query : bool) st v st1 :
  (if query then to_query w else to_compute w) st = (Ok v, st1) ->
  _expand_work (VWorkArray w :: rest) query st
  = match _expand_work rest query st1 with
    | (Ok r, st') => (Ok (v :: r), st')
    | (Raise e, st') => (Raise e, st')
    end.
Proof.
  intros H. unfold _expand_work. cbn [mapM]. rewrite (bind_ok _ _ _ _ _ H).
  unfold bind, ret. now destruct (mapM _ rest st1) as [[r | e] st'].
Qed.

Lemma expand_work_twice pre mid post w (query : bool) st v1 st1 v2 st2 :
  existsb is_WorkArray pre = false ->
  existsb is_WorkArray mid = false ->
  existsb is_WorkArray post = false ->
  (if query then to_query w else to_compute w) st = (Ok v1, st1) ->
  (if query then to_query w else to_compute w) st1 = (Ok v2, st2) ->
  _expand_work (pre ++ VWorkArray w :: mid ++ VWorkArray w :: post) query st
  = (Ok (pre ++ v1 :: mid ++ v2 :: post), st2).
Proof.
  intros Hpre Hmid Hpost H1 H2.
  rewrite (expand_work_prefix pre _ query st Hpre).
  rewrite (expand_work_cons_work w _ query st v1 st1 H1).
  rewrite (expand_work_prefix mid _ query st1 Hmid).
  rewrite (expand_work_cons_work w _ query st1 v2 st2 H2).
  now rewrite (expand_work_no_work post query st2 Hpost).
Qed.

(** X14: when one [WorkArray] instance (with a single dtype) is passed in
    two places of a call, among arguments that hold no other work array and
    only ASCII text, the query call receives two different one-element
    buffers, but the second [to_query] overwrites the first in
    [query_arrays]: provided the routine returns and [np.zeros] accepts the
    length, both places of the compute call get the length that the routine
    left in the second buffer, and what it left in the first buffer is
    never read. *)
Theorem call_routine_same_work_array_twice
    (routine : native) (pre mid post : list value) (w : nat) (self : WorkArray)
    (T : np_type) (st : state) (rv1 : value) (h1 : list ndarray) (n : Z) :
  existsb is_WorkArray pre = false ->
  existsb is_WorkArray mid = false ->
  existsb is_WorkArray post = false ->
  forallb ascii_arg pre = true ->
  forallb ascii_arg mid = true ->
  forallb ascii_arg post = true ->
  works st !! w = Some self ->
  np_types self = [T] ->
  let args := pre ++ VWorkArray w :: mid ++ VWorkArray w :: post in
  let b := length (arrays st) in
  let heap1 := arrays st ++ [zeros 1 T; zeros 1 T] in
  let flat1 :=
    flatten (pure_passes pre) ++ [VArray b; VInt (-1)]
    ++ flatten (pure_passes mid) ++ [VArray (S b); VInt (-1)]
    ++ flatten (pure_passes post) in
  routine flat1 heap1 = (Some rv1, h1) ->
  read_len h1 (S b) = Ok n ->
  all_zeros_ok (allocator st) h1 [(n, T); (n, T)] = true ->
  let c := length h1 in
  let heap2 := h1 ++ [zeros n T; zeros n T] in
  let flat2 :=
    flatten (pure_passes pre) ++ [VArray c; VInt n]
    ++ flatten (pure_passes mid) ++ [VArray (S c); VInt n]
    ++ flatten (pure_passes post) in
  calls (snd (_call_routine routine args st))
    = calls st ++ [ {| call_args := flat1; call_heap := heap1 |};
                    {| call_args := flat2; call_heap := heap2 |} ] /\
  fst (_call_routine routine args st) = native_result routine flat2 heap2.
Proof.
  intros Hpre Hmid Hpost Apre Amid Apost Hw Hty args b heap1 flat1 Hr Hn P
         c heap2 flat2.
  set (pre' := pure_passes pre) in *. set (mid' := pure_passes mid) in *.
  set (post' := pure_passes post) in *.
  assert (Hlt : (w < length (works st))%nat) by (eapply lookup_lt_Some; eauto).
  assert (Hpre' : existsb is_WorkArray pre' = false)
    by (subst pre'; now rewrite pure_passes_no_work).
  assert (Hmid' : existsb is_WorkArray mid' = false)
    by (subst mid'; now rewrite pure_passes_no_work).
  assert (Hpost' : existsb is_WorkArray post' = false)
    by (subst post'; now rewrite pure_passes_no_work).
  simpl in P. apply andb_true_iff in P as [P1 P2].
  rewrite andb_true_r in P2.
  (* the pure passes *)
  assert (Atail : forallb ascii_arg (VWorkArray w :: post) = true) by exact Apost.
  assert (Amt : forallb ascii_arg (mid ++ VWorkArray w :: post) = true)
    by (rewrite forallb_app, Amid; exact Atail).
  assert (Aall : forallb ascii_arg args = true).
  { subst args. rewrite forallb_app, Apre. exact Amt. }
  assert (Hexp : pure_passes args
                 = pre' ++ VWorkArray w :: mid' ++ VWorkArray w :: post').
  { subst args.
    rewrite (pure_passes_app pre (VWorkArray w :: mid ++ VWorkArray w :: post)
               Apre Amt).
    rewrite (pure_passes_cons_work w _ Amt).
    rewrite (pure_passes_app mid (VWorkArray w :: post) Amid Atail).
    now rewrite (pure_passes_cons_work w _ Apost). }
  pose proof (encode_strings_ascii _ Aall) as He. rewrite Hexp in He.
  (* the two queries *)
  set (self1 := {| types := types self; np_types := np_types self;
                   query_arrays := Some [b] |}).
  set (self2 := {| types := types self; np_types := np_types self;
                   query_arrays := Some [S b] |}).
  set (st1 := {| expand_args := expand_args st; arrays := arrays st ++ [zeros 1 T];
                 works := <[w := self1]> (works st); calls := calls st;
                 allocator := allocator st |}).
  set (st2 := {| expand_args := expand_args st; arrays := heap1;
                 works := <[w := self2]> (<[w := self1]> (works st));
                 calls := calls st; allocator := allocator st |}).
  assert (Q1 : to_query w st = (Ok (VList (query_pairs b 1)), st1)).
  { rewrite (to_query_spec _ _ _ Hw). subst st1 self1 b. now rewrite Hty. }
  assert (Q2 : to_query w st1 = (Ok (VList (query_pairs (S b) 1)), st2)).
  { rewrite (to_query_spec w self1 st1)
      by (simpl; now apply list_lookup_insert_eq).
    subst st2 self2 heap1. simpl. rewrite Hty. simpl.
    rewrite length_app, Nat.add_1_r, <- app_assoc. reflexivity. }
  pose proof (expand_work_twice pre' mid' post' w true st _ _ _ _
                Hpre' Hmid' Hpost' Q1 Q2) as E1.
  assert (F1 : flatten (pre' ++ VList (query_pairs b 1)
                          :: mid' ++ VList (query_pairs (S b) 1) :: post') = flat1).
  { rewrite flatten_app.
    change (flatten (VList (query_pairs b 1)
                       :: mid' ++ VList (query_pairs (S b) 1) :: post'))
      with ([VArray b; VInt (-1)]
              ++ flatten (mid' ++ VList (query_pairs (S b) 1) :: post')).
    rewrite flatten_app. reflexivity. }
  set (c1 := {| call_args := flat1; call_heap := heap1 |}).
  set (st3 := set_arrays h1 (log_call c1 st2)).
  assert (N1 : call_native routine flat1 st2 = (Ok rv1, st3)).
  { unfold call_native. simpl. now rewrite Hr. }
  (* the two materialisations read the same buffer *)
  assert (W3 : works st3 !! w = Some self2).
  { simpl. apply list_lookup_insert_eq. now rewrite length_insert. }
  set (st4 := set_arrays (h1 ++ [zeros n T]) st3).
  set (st5 := set_arrays heap2 st3).
  assert (C1 : to_compute w st3 = (Ok (VList (work_pairs c [(n, T)])), st4)).
  { rewrite (to_compute_spec w self2 [S b] [n]); try assumption; try reflexivity.
    - subst st4 c self2. simpl. now rewrite Hty.
    - simpl. now rewrite Hn.
    - subst self2. simpl. rewrite Hty. simpl. now rewrite P1. }
  assert (C2 : to_compute w st4 = (Ok (VList (work_pairs (S c) [(n, T)])), st5)).
  { rewrite (to_compute_spec w self2 [S b] [n]); try assumption; try reflexivity.
    - subst st5 st4 heap2 c self2. simpl. rewrite Hty. simpl.
      rewrite length_app, Nat.add_1_r, <- app_assoc. reflexivity.
    - simpl. now rewrite (read_len_app _ _ _ _ Hn).
    - subst self2. simpl. rewrite Hty. simpl. now rewrite P2. }
  pose proof (expand_work_twice pre' mid' post' w false st3 _ _ _ _
                Hpre' Hmid' Hpost' C1 C2) as E2.
  assert (F2 : flatten (pre' ++ VList (work_pairs c [(n, T)])
                          :: mid' ++ VList (work_pairs (S c) [(n, T)]) :: post')
               = flat2).
  { rewrite flatten_app.
    change (flatten (VList (work_pairs c [(n, T)])
                       :: mid' ++ VList (work_pairs (S c) [(n, T)]) :: post'))
      with ([VArray c; VInt n]
              ++ flatten (mid' ++ VList (work_pairs (S c) [(n, T)]) :: post')).
    rewrite flatten_app. reflexivity. }
  assert (Hneed : existsb is_WorkArray args = true).
  { subst args. rewrite existsb_app. simpl. apply orb_true_r. }
  assert (Hall : _call_routine routine args st = call_native routine flat2 st5).
  { unfold _call_routine. rewrite Hneed.
    rewrite (bind_ok _ _ st (pre' ++ VWorkArray w :: mid' ++ VWorkArray w :: post') st)
      by (unfold lift; now rewrite He).
    rewrite (bind_ok _ _ st rv1 st3)
      by (rewrite (bind_ok _ _ _ _ _ E1), F1; exact N1).
    rewrite (bind_ok _ _ _ _ _ E2), F2. apply bind_ret_r. }
  rewrite Hall, call_native_eq. split; [| reflexivity].
  simpl. rewrite <- app_assoc. reflexivity.
Qed.

Lemma call_routine_same_work_array_twice_witness :
  let self := {| types := ["I"]%string; np_types := [int32];
                 query_arrays := None |} in
  let st := {| expand_args := true; arrays := []; works := [self]; calls := [];
               allocator := grant_upto 64 |} in
  (* the routine asks for 3 in the first buffer and 8 in the second *)
  let routine : native :=
    fun _ h => (Some (VInt 0),
                <[1%nat := {| dtype := int32; data := [SInt 8] |}]>
                  (<[0%nat := {| dtype := int32; data := [SInt 3] |}]> h)) in
  map call_args
    (calls (snd (_call_routine routine
                   [VStr [85%N]; VWorkArray 0; VInt 5; VWorkArray 0] st)))
  = [ [VBytes ["U"%byte]; VArray 0; VInt (-1); VInt 5; VArray 1; VInt (-1)];
      [VBytes ["U"%byte]; VArray 2; VInt 8; VInt 5; VArray 3; VInt 8] ].
Proof.
  intros self st routine.
  pose proof (call_routine_same_work_array_twice routine
                [VStr [85%N]] [VInt 5] [] 0 self int32 st (VInt 0)
                [ {| dtype := int32; data := [SInt 3] |};
                  {| dtype := int32; data := [SInt 8] |} ] 8
                eq_refl eq_refl eq_refl eq_refl eq_refl eq_refl
                eq_refl eq_refl eq_refl eq_refl eq_refl) as [H _].
  exact (eq_trans (f_equal (map call_args) H) eq_refl).
Defined.

(** ** The wrapper with expansion switched off, in general *)

(** X15: with [expand_args] false the wrapper makes exactly one native
    call, on the flattened argument list as it stands: text is not encoded
    (so no [UnicodeEncodeError] can arise), distributed matrices and work
    arrays are not expanded, no instance is touched and no query is made.
    As the code is written, the wrapper's own value is [None] when the
    routine returns. *)
Theorem wrapper_raw_mode (robj : native) (args : list value) (st : state) :
  expand_args st = false ->
  let st' := snd (wrapper robj args st) in
  calls st' = calls st ++ [ {| call_args := flatten args; call_heap := arrays st |} ] /\
  works st' = works st /\
  arrays st' = snd (robj (flatten args) (arrays st)) /\
  fst (wrapper robj args st)
    = match fst (robj (flatten args) (arrays st)) with
      | Some _ => Ok VNone
      | None => Raise NativeError
      end.
Proof.
  intros H st'. subst st'. rewrite (wrapper_raw _ _ _ H). simpl.
  repeat split.
Qed.

Lemma wrapper_raw_mode_witness :
  let st := {| expand_args := false; arrays := [];
               works := [ {| types := ["D"]%string; np_types := [float64];
                             query_arrays := None |} ];
               calls := []; allocator := grant_all |} in
  calls (snd (wrapper status_zero [VStr [233%N]; VWorkArray 0] st))
  = [ {| call_args := [VStr [233%N]; VWorkArray 0]; call_heap := [] |} ].
Proof.
  intros st.
  destruct (wrapper_raw_mode status_zero [VStr [233%N]; VWorkArray 0] st eq_refl)
    as (H & _).
  rewrite H. reflexivity.
Defined.

(** ** [_expand_work] on its own *)

(** X16: in compute mode [_expand_work] raises "Work query not yet
    performed." at the first work array that has not been queried, once
    the arguments before it have been processed: what follows is not looked
    at, and no instance and no entry of the call log has changed.  Buffers
    allocated for queried work arrays in front of it stay allocated; when
    no work array precedes it the store is unchanged. *)
Theorem expand_work_compute_unqueried
    (pre post out : list value) (w : nat) (self : WorkArray) (st st1 : state) :
  _expand_work pre false st = (Ok out, st1) ->
  works st !! w = Some self ->
  query_arrays self = None ->
  _expand_work (pre ++ VWorkArray w :: post) false st
    = (Raise WorkQueryNotPerformed, st1) /\
  works st1 = works st /\ calls st1 = calls st /\
  (existsb is_WorkArray pre = false -> st1 = st).
Proof.
  intros Hpre Hw Hq.
  destruct (expand_work_compute_outcome _ _ _ _ Hpre) as (Hws & Hcs & _).
  split; [| split; [assumption | split; [assumption |]]].
  - unfold _expand_work in *. rewrite mapM_app.
    rewrite (bind_ok _ _ _ _ _ Hpre).
    apply bind_raise. cbn [mapM]. apply bind_raise.
    unfold to_compute, bind, get_work. now rewrite Hws, Hw, Hq.
  - intros Hno. rewrite (expand_work_no_work pre false st Hno) in Hpre.
    now inversion Hpre.
Qed.

Lemma expand_work_compute_unqueried_witness :
  let st := {| expand_args := true;
               arrays := [ {| dtype := int32; data := [SInt 2] |} ];
               works := [ {| types := ["I"]%string; np_types := [int32];
                             query_arrays := Some [0%nat] |};
                          {| types := ["Z"]%string; np_types := [complex128];
                             query_arrays := None |} ];
               calls := []; allocator := grant_all |} in
  _expand_work [VInt 1; VWorkArray 0; VWorkArray 1; VWorkArray 7] false st
  = (Raise WorkQueryNotPerformed, set_arrays (arrays st ++ [zeros 2 int32]) st).
Proof.
  intros st.
  apply (expand_work_compute_unqueried [VInt 1; VWorkArray 0] [VWorkArray 7]
           [VInt 1; VList [VList [VArray 1; VInt 2]]] 1
           {| types := ["Z"]%string; np_types := [complex128];
              query_arrays := None |} st
           (set_arrays (arrays st ++ [zeros 2 int32]) st)); reflexivity.
Defined.

(** X17: once the query pass over an argument list has returned, the
    compute pass over the same list cannot raise "Work query not yet
    performed.", whatever has happened to the arrays in between, as long as
    the instances are the ones the query pass left. *)
Theorem expand_work_query_then_compute
    (args out : list value) (st st1 st2 st3 : state) (r : result (list value)) :
  _expand_work args true st = (Ok out, st1) ->
  works st2 = works st1 ->
  _expand_work args false st2 = (r, st3) ->
  r <> Raise WorkQueryNotPerformed.
Proof.
  intros Hq Hw Hc ->.
  destruct (expand_work_query_outcome _ _ _ _ Hq) as (_ & _ & Hk).
  destruct (Hk out eq_refl) as [_ Hk2].
  destruct (expand_work_compute_outcome _ _ _ _ Hc) as (_ & _ & Hne).
  assert (Hi : internal_error WorkQueryNotPerformed = false); [| discriminate].
  apply Hne; [| reflexivity]. intros w Hin.
  destruct (Hk2 w Hin) as (self & qa & Hl & Hqa).
  exists self, qa. split; [congruence | assumption].
Qed.

Lemma expand_work_query_then_compute_witness :
  let st := snd (WorkArray_init ["D"]%string empty_state) in
  let st1 := snd (_expand_work [VWorkArray 0] true st) in
  fst (_expand_work [VWorkArray 0] false st1) <> Raise WorkQueryNotPerformed.
Proof.
  intros st st1.
  apply (expand_work_query_then_compute [VWorkArray 0]
           [VList [VList [VArray 0; VInt (-1)]]] st st1 st1
           (snd (_expand_work [VWorkArray 0] false st1))); reflexivity.
Defined.

Lemma query_allocation_insert ws (w : nat) self self1 args :
  ws !! w = Some self -> np_types self1 = np_types self ->
  query_allocation (<[w := self1]> ws) args = query_allocation ws args.
Proof.
  intros Hw Hty. unfold query_allocation.
  induction args as [| a args IH]; [reflexivity |].
  cbn [flat_map]. rewrite IH. f_equal.
  destruct a; try reflexivity.
  destruct (Nat.eq_dec w w0) as [<- | Hne].
  - rewrite list_lookup_insert_eq by (eapply lookup_lt_Some; eauto).
    now rewrite Hw, Hty.
  - now rewrite list_lookup_insert_ne.
Qed.

(** X18: the query pass succeeds whenever the work arrays in the list
    exist.  It returns one entry per argument and allocates, after the
    arrays that exist and in argument order, one one-element zero array per
    dtype of each work array, counting an instance once for every place it
    is passed in; the call log is unchanged. *)
Theorem expand_work_query_allocation (args : list value) (st : state) :
  (forall w : nat, In (VWorkArray w) args -> is_Some (works st !! w)) ->
  exists out st',
    _expand_work args true st = (Ok out, st') /\
    length out = length args /\
    arrays st' = arrays st ++ query_allocation (works st) args /\
    calls st' = calls st.
Proof.
  unfold _expand_work. revert st.
  induction args as [| a args IH]; intros st Hlive.
  - exists [], st. simpl. rewrite app_nil_r. repeat split.
  - assert (Hstep : exists v st1,
               (match a with
                | VWorkArray w => to_query w
                | _ => ret a
                end) st = (Ok v, st1) /\
               arrays st1 = arrays st ++ query_allocation (works st) [a] /\
               calls st1 = calls st /\
               (forall w : nat, is_Some (works st !! w) -> is_Some (works st1 !! w)) /\
               query_allocation (works st1) args = query_allocation (works st) args).
    { destruct a; try (exists a0 || eexists; exists st; simpl;
                       rewrite ?app_nil_r; repeat split; auto; fail).
      all: try (eexists; exists st; simpl; rewrite ?app_nil_r;
                split; [reflexivity |]; repeat split; auto; fail).
      destruct (Hlive w (or_introl eq_refl)) as [self Hw].
      rewrite (to_query_spec _ _ _ Hw). eexists _, _. split; [reflexivity |].
      simpl. rewrite Hw, app_nil_r. split; [reflexivity |]. split; [reflexivity |].
      split.
      - intros w' [s' Hs']. apply lookup_lt_is_Some.
        rewrite length_insert. eapply lookup_lt_Some; eauto.
      - now apply (query_allocation_insert _ _ self). }
    destruct Hstep as (v & st1 & Hv & Ha & Hc & Hl & Hqa).
    destruct (IH st1) as (out & st' & Ho & Hlen & Harr & Hcalls).
    { intros w Hin. apply Hl, Hlive. now right. }
    exists (v :: out), st'. cbn [mapM].
    rewrite (bind_ok _ _ _ _ _ Hv), (bind_ok _ _ _ _ _ Ho).
    split; [reflexivity |]. split; [simpl; now rewrite Hlen |].
    split; [| congruence].
    rewrite Harr, Ha, Hqa, <- app_assoc. f_equal.
    unfold query_allocation. cbn [flat_map]. now rewrite app_nil_r.
Qed.

Lemma expand_work_query_allocation_witness :
  let st := {| expand_args := true; arrays := [zeros 2 int32];
               works := [ {| types := ["Z"; "I"]%string;
                             np_types := [complex128; int32];
                             query_arrays := None |} ];
               calls := []; allocator := grant_all |} in
  exists out st',
    _expand_work [VWorkArray 0; VInt 4; VWorkArray 0] true st = (Ok out, st') /\
    arrays st' = [zeros 2 int32; zeros 1 complex128; zeros 1 int32;
                  zeros 1 complex128; zeros 1 int32].
Proof.
  intros st.
  destruct (expand_work_query_allocation [VWorkArray 0; VInt 4; VWorkArray 0] st)
    as (out & st' & H1 & _ & H3 & _).
  - intros w [H | [H | [H | []]]]; inversion H; subst. all: now eexists.
  - exists out, st'. split; [exact H1 |]. rewrite H3. reflexivity.
Defined.

(** ** The two calls have the same arity *)

Lemma query_pairs_flat_length r k : length (flatten (query_pairs r k)) = (2 * k)%nat.
Proof.
  unfold query_pairs. revert r. induction k as [| k IH]; intros r; [reflexivity |].
  cbn [seq map]. unfold flatten. cbn [flat_map flatten_value app length].
  fold (flatten (map (fun arr => VList [VArray arr; VInt (-1)]) (seq (S r) k))).
  rewrite IH. lia.
Qed.

Lemma alloc_flat_length ps st out st' :
  mapM (fun p : Z * np_type =>
          let* buf := np_zeros (fst p) (snd p) in
          ret (VList [VArray buf; VInt (fst p)])) ps st = (Ok out, st') ->
  length (flatten out) = (2 * length ps)%nat.
Proof.
  revert st out. induction ps as [| p ps IH]; intros st out H; simpl in H.
  - now inversion H.
  - bind_head H; [| discriminate]. bind_head H; [| discriminate].
    inversion H; subst.
    destruct (alloc_one_outcome _ _ _ _ E) as (_ & _ & _ & Hv).
    rewrite (Hv a eq_refl).
    unfold flatten. cbn [flat_map flatten_value app length].
    fold (flatten a0). rewrite (IH _ _ E0). simpl. lia.
Qed.

Lemma to_compute_width w st v st' self qa :
  to_compute w st = (Ok v, st') ->
  works st !! w = Some self ->
  query_arrays self = Some qa ->
  length qa = length (np_types self) ->
  length (flatten_value v) = (2 * length (np_types self))%nat.
Proof.
  intros H Hw Hq Hlen. unfold to_compute in H.
  rewrite (bind_ok _ _ st self st) in H by (unfold get_work; now rewrite Hw).
  rewrite Hq in H. rewrite (bind_eq _ _ _ _ _ (read_lens qa st)) in H.
  destruct (rmap (read_len (arrays st)) qa) as [wlens |] eqn:Hl; [| discriminate].
  bind_head H; [| discriminate]. inversion H; subst.
  change (flatten_value (VList a)) with (flatten a).
  rewrite (alloc_flat_length _ _ _ _ E), length_combine.
  rewrite (rmap_length _ _ _ Hl), Hlen. lia.
Qed.

Lemma flat_width_same ws ws' arg :
  same_dtypes ws ws' -> flat_width ws arg = flat_width ws' arg.
Proof.
  intros H. destruct arg; try reflexivity. simpl. specialize (H w).
  destruct (ws !! w), (ws' !! w); simpl in H; try discriminate; [| reflexivity].
  now inversion H.
Qed.

Lemma to_query_widths w st v st1 :
  to_query w st = (Ok v, st1) ->
  same_dtypes (works st1) (works st) /\
  (forall w', fully_queried st w' -> fully_queried st1 w') /\
  fully_queried st1 w /\
  length (flatten_value v) = flat_width (works st) (VWorkArray w).
Proof.
  intros H. destruct (works st !! w) as [self |] eqn:Hw.
  2: { unfold to_query, bind at 1, get_work in H. rewrite Hw in H. discriminate. }
  rewrite (to_query_spec _ _ _ Hw) in H. inversion H; subst; clear H.
  assert (Hlt : (w < length (works st))%nat) by (eapply lookup_lt_Some; eauto).
  assert (Hme : fully_queried
                  {| expand_args := expand_args st;
                     arrays := arrays st ++ map (zeros 1) (np_types self);
                     works := <[w := {| types := types self; np_types := np_types self;
                                        query_arrays := Some (seq (length (arrays st))
                                                                  (length (np_types self))) |}]>
                                (works st);
                     calls := calls st; allocator := allocator st |} w).
  { eexists _, _. simpl. split; [now apply list_lookup_insert_eq |].
    split; [reflexivity | apply length_seq]. }
  split; [| split; [| split]].
  - intros w'. simpl. destruct (Nat.eq_dec w w') as [<- | Hne].
    + rewrite list_lookup_insert_eq by assumption. now rewrite Hw.
    + now rewrite list_lookup_insert_ne.
  - intros w' (s' & qa' & H1 & H2 & H3). destruct (Nat.eq_dec w w') as [<- | Hne].
    + exact Hme.
    + exists s', qa'. simpl. rewrite list_lookup_insert_ne by assumption. auto.
  - exact Hme.
  - simpl. rewrite Hw.
    change (flat_map flatten_value
              (query_pairs (length (arrays st)) (length (np_types self))))
      with (flatten (query_pairs (length (arrays st)) (length (np_types self)))).
    rewrite query_pairs_flat_length. lia.
Qed.

Lemma same_dtypes_trans ws1 ws2 ws3 :
  same_dtypes ws1 ws2 -> same_dtypes ws2 ws3 -> same_dtypes ws1 ws3.
Proof. intros H1 H2 w. now rewrite H1. Qed.

Lemma widths_same ws ws' args :
  same_dtypes ws ws' ->
  sum_list (map (flat_width ws) args) = sum_list (map (flat_width ws') args).
Proof.
  intros H. induction args as [| a args IH]; [reflexivity |].
  simpl. now rewrite IH, (flat_width_same _ _ a H).
Qed.

Lemma expand_work_query_widths args st out st1 :
  _expand_work args true st = (Ok out, st1) ->
  same_dtypes (works st1) (works st) /\
  (forall w, fully_queried st w -> fully_queried st1 w) /\
  (forall w, In (VWorkArray w) args -> fully_queried st1 w) /\
  length (flatten out) = sum_list (map (flat_width (works st)) args).
Proof.
  unfold _expand_work. revert st out.
  induction args as [| a args IH]; intros st out H; simpl in H.
  - inversion H; subst. split; [easy |]. split; [auto |]. split; [intros w [] | reflexivity].
  - bind_head H; [| discriminate]. bind_head H; [| discriminate].
    inversion H; subst; clear H.
    destruct (IH _ _ E0) as (I1 & I2 & I3 & I4).
    assert (Hs : same_dtypes (works st0) (works st) /\
                 (forall w, fully_queried st w -> fully_queried st0 w) /\
                 (forall w, a = VWorkArray w -> fully_queried st0 w) /\
                 length (flatten_value a0) = flat_width (works st) a).
    { destruct a; try (inversion E; subst; split; [easy |]; split; [auto |];
                       split; [discriminate | reflexivity]).
      destruct (to_query_widths _ _ _ _ E) as (T1 & T2 & T3 & T4).
      split; [assumption |]. split; [assumption |]. split; [| assumption].
      intros w' Hw'. now inversion Hw'; subst. }
    destruct Hs as (S1 & S2 & S3 & S4).
    split; [eapply same_dtypes_trans; eauto |]. split; [auto |]. split.
    + intros w [Hw | Hw]; [apply I2, S3; now symmetry | now apply I3].
    + unfold flatten in *. cbn [flat_map map]. rewrite length_app, I4, S4.
      simpl. f_equal. now apply widths_same.
Qed.

Lemma expand_work_compute_widths args st out st' :
  _expand_work args false st = (Ok out, st') ->
  (forall w, In (VWorkArray w) args -> fully_queried st w) ->
  length (flatten out) = sum_list (map (flat_width (works st)) args).
Proof.
  unfold _expand_work. revert st out.
  induction args as [| a args IH]; intros st out H Hq; simpl in H.
  - now inversion H.
  - bind_head H; [| discriminate]. bind_head H; [| discriminate].
    inversion H; subst; clear H.
    assert (Hs : works st0 = works st /\
                 length (flatten_value a0) = flat_width (works st) a).
    { destruct a; try (inversion E; subst; split; reflexivity).
      destruct (to_compute_outcome _ _ _ _ E) as (Hw & _). split; [assumption |].
      destruct (Hq w (or_introl eq_refl)) as (self & qa & H1 & H2 & H3).
      simpl. rewrite H1. eapply to_compute_width; eauto. }
    destruct Hs as [S1 S2].
    unfold flatten in *. cbn [flat_map map]. rewrite length_app, S2. simpl. f_equal.
    rewrite <- S1. apply (IH _ _ E0).
    intros w Hw. destruct (Hq w (or_intror Hw)) as (self & qa & H1 & H2 & H3).
    exists self, qa. rewrite S1. auto.
Qed.

Lemma widths_no_work ws args :
  existsb is_WorkArray args = false ->
  sum_list (map (flat_width ws) args) = length (flatten args).
Proof.
  induction args as [| a args IH]; simpl; intros H; [reflexivity |].
  apply orb_false_iff in H as [Ha Hr]. unfold flatten in *. cbn [flat_map].
  rewrite length_app, (IH Hr). destruct a; simpl in Ha; try discriminate; reflexivity.
Qed.

(** X19: when [_call_routine] returns a value, every native call it made
    was given the same number of flat arguments: two for each dtype of each
    work array passed, plus what flattening gives for the other expanded
    and encoded arguments.  So the query call and the compute call have
    the same arity. *)
Theorem call_routine_same_arity
    (routine : native) (args : list value) (st st' : state) (rv : value) :
  _call_routine routine args st = (Ok rv, st') ->
  exists cs,
    calls st' = calls st ++ cs /\
    Forall (fun c => length (call_args c)
                     = sum_list (map (flat_width (works st)) (pure_passes args))) cs.
Proof.
  unfold _call_routine, pure_passes. intros H.
  unfold bind at 1, lift in H.
  destruct (_encode_strings (_expand_dm args)) as [exp | e0] eqn:He; [| discriminate].
  assert (Hex : existsb is_WorkArray exp = existsb is_WorkArray args).
  { rewrite (encode_strings_is_WorkArray _ _ He). apply expand_dm_is_WorkArray. }
  destruct (existsb is_WorkArray args) eqn:Hn.
  - bind_head H; [| discriminate]. bind_head E; [| discriminate].
    destruct (expand_work_query_widths _ _ _ _ E0) as (Q1 & _ & Q3 & Q4).
    pose proof (expand_work_calls _ _ _ _ _ E0) as Hc0.
    destruct (call_native_log _ _ _ _ _ E) as [Hl1 _].
    destruct (call_native_outcome _ _ _ _ _ E) as [Hw1 _].
    bind_head H; [| discriminate]. rewrite bind_ret_r in H.
    pose proof (expand_work_calls _ _ _ _ _ E1) as Hc1.
    destruct (call_native_log _ _ _ _ _ H) as [Hl2 _].
    assert (W2 : length (flatten a1)
                 = sum_list (map (flat_width (works st0)) exp)).
    { eapply expand_work_compute_widths; eauto.
      intros w Hin. destruct (Q3 w Hin) as (self & qa & H1 & H2 & H3).
      exists self, qa. rewrite Hw1. auto. }
    eexists [_; _]. split.
    + rewrite Hl2, Hc1, Hl1, Hc0, <- app_assoc. reflexivity.
    + repeat constructor; simpl; [exact Q4 |].
      rewrite W2, Hw1. now apply widths_same.
  - rewrite (bind_ok _ _ st VNone st) in H by reflexivity.
    rewrite (bind_ok _ _ _ _ _ (expand_work_no_work exp false st Hex)) in H.
    rewrite bind_ret_r in H. destruct (call_native_log _ _ _ _ _ H) as [Hl _].
    eexists [_]. split; [exact Hl |].
    repeat constructor. simpl. symmetry. now apply widths_no_work.
Qed.

Lemma call_routine_same_arity_witness :
  let st := snd (WorkArray_init ["Z"; "I"]%string empty_state) in
  exists cs,
    calls (snd (_call_routine wants_four [VStr [78%N]; VWorkArray 0] st))
    = calls st ++ cs /\
    Forall (fun c => length (call_args c) = 5%nat) cs.
Proof.
  intros st.
  exact (call_routine_same_arity wants_four [VStr [78%N]; VWorkArray 0] st
           (snd (_call_routine wants_four [VStr [78%N]; VWorkArray 0] st))
           (VInt 0) eq_refl).
Defined.
